(** * MTGScan: card-name resolution and deck assembly ([mtgscan/text.py])

    A shallow embedding of [MagicRecognition] and the properties of its
    resolver ([search]), keyword filter ([box_texts_to_cards]), quantity
    assigner ([assign_stacked]) and deck assembler
    ([box_texts_to_stacked_cards]).

    Conventions.
    - A Python [str] is a [string]; every [ascii] stands for the code point
      of the same number (0..255), so the multiplication sign U+00D7 is the
      character 215.
    - Python integers are [Z]; a [float] ratio is a rational ([Q]) and
      [int(...)] of it truncates toward zero.
    - An exception is a value of [exn]; code that can raise returns a
      [result]. *)

From Stdlib Require Import ZArith QArith Qround Lia Ascii String.
From stdpp Require Import gmap strings list fin_maps.

Local Open Scope string_scope.
Local Open Scope Z_scope.

(** ** Exceptions *)

Inductive exn : Type :=
| IndexError
| ValueError
| ZeroDivisionError.

Inductive result (A : Type) : Type :=
| Ok (a : A)
| Raise (e : exn).

Arguments Ok {A} a.
Arguments Raise {A} e.

#[global] Instance result_ret : MRet result := λ A a, Ok a.
#[global] Instance result_bind : MBind result := λ A B f m,
  match m with
  | Ok a => f a
  | Raise e => Raise e
  end.

(** ** Strings the way Python reads them *)

(** [len(s)] *)
Definition len (s : string) : Z := Z.of_nat (String.length s).

(** [s[:i]] for [i >= 0] *)
Fixpoint slice_to (i : nat) (s : string) : string :=
  match i, s with
  | O, _ => ""
  | S _, "" => ""
  | S i', String c s' => String c (slice_to i' s')
  end.

(** [s.find(sub)], counting from position [pos] *)
Fixpoint find_from (sub s : string) (pos : nat) : Z :=
  match s with
  | "" => if String.prefix sub "" then Z.of_nat pos else -1
  | String _ s' =>
      if String.prefix sub s then Z.of_nat pos else find_from sub s' (S pos)
  end.

Definition find (sub s : string) : Z := find_from sub s 0.

Fixpoint str_filter (keep : ascii → bool) (s : string) : string :=
  match s with
  | "" => ""
  | String c s' =>
      if keep c then String c (str_filter keep s') else str_filter keep s'
  end.

(** [s.rstrip(' ')] *)
Fixpoint rstrip (s : string) : string :=
  match s with
  | "" => ""
  | String c s' =>
      match rstrip s' with
      | "" => if Ascii.eqb c " " then "" else String c ""
      | r => String c r
      end
  end.

(** [s.replace('.', '')] *)
Definition remove_dots (s : string) : string :=
  str_filter (λ c, negb (Ascii.eqb c ".")) s.

Definition in_range (lo hi : nat) (c : ascii) : bool :=
  (lo <=? nat_of_ascii c)%nat && (nat_of_ascii c <=? hi)%nat.

(** the class [a-zA-Z',. ] of [preprocess] *)
Definition name_char (c : ascii) : bool :=
  in_range 97 122 c || in_range 65 90 c
  || Ascii.eqb c "'" || Ascii.eqb c "," || Ascii.eqb c "." || Ascii.eqb c " ".

(** one of the characters of ['×xX'] *)
Definition times_char (c : ascii) : bool :=
  (nat_of_ascii c =? 215)%nat || Ascii.eqb c "x" || Ascii.eqb c "X".

(** [c.isdecimal()]: the digits [int] accepts *)
Definition isdecimal (c : ascii) : bool := in_range 48 57 c.

(** [c.isnumeric()] on the code points below 256: the ten digits, the
    superscripts 2, 3 and 1, and the fractions 1/4, 1/2 and 3/4. *)
Definition isnumeric (c : ascii) : bool :=
  isdecimal c
  || existsb (Nat.eqb (nat_of_ascii c)) [178; 179; 185; 188; 189; 190]%nat.

(** [int(c)] of a one-character string: [ValueError] unless decimal *)
Definition int_of_char (c : ascii) : result Z :=
  if isdecimal c then Ok (Z.of_nat (nat_of_ascii c) - 48) else Raise ValueError.

(** [int(q)] of a float: truncation toward zero *)
Definition py_int (q : Q) : Z := Z.quot (Qnum q) (Zpos (Qden q)).

(** [a / b] inside a log message: only its failure matters *)
Definition py_div (a b : Z) : result unit :=
  if b =? 0 then Raise ZeroDivisionError else Ok tt.

(** ** The symspellpy objects

    [symspellpy] is a library the program imports; it is taken through its
    documented interface.  [levenshtein] is the distance both contracts
    speak about. *)

Fixpoint levenshtein (s : string) : string → nat :=
  match s with
  | "" => String.length
  | String a s' =>
      fix lev_s (t : string) : nat :=
        match t with
        | "" => S (String.length s')
        | String b t' =>
            Nat.min (Nat.min (S (levenshtein s' t)) (S (lev_s t')))
                    ((if Ascii.eqb a b then 0 else 1) + levenshtein s' t')
        end
  end.

Definition lev (s t : string) : Z := Z.of_nat (levenshtein s t).

(** The distance a [SymSpell] uses unless told otherwise (optimal string
    alignment): a swap of two adjacent characters is one more edit. *)
Fixpoint damerau_osa (s : string) : string → nat :=
  match s with
  | "" => String.length
  | String a s' =>
      fix osa_s (t : string) : nat :=
        match t with
        | "" => S (String.length s')
        | String b t' =>
            let d :=
              Nat.min (Nat.min (S (damerau_osa s' t)) (S (osa_s t')))
                      ((if Ascii.eqb a b then 0 else 1) + damerau_osa s' t') in
            match s', t' with
            | String a2 s'', String b2 t'' =>
                if Ascii.eqb a b2 && Ascii.eqb a2 b
                then Nat.min d (S (damerau_osa s'' t''))
                else d
            | _, _ => d
            end
        end
  end.

(** [SuggestItem] *)
Record SuggestItem : Type := mkSuggestItem {
  term : string;
  distance : Z;
  count : Z
}.

(** [EditDistance.compare(string_1, string_2, max_distance)] *)
Definition EditDistance : Type := string → string → Z → Z.

(** [SymSpell]: the dictionary [_words] (its keys, in insertion order) and
    [lookup(phrase, Verbosity.CLOSEST, max_edit_distance)]. *)
Record SymSpell : Type := mkSymSpell {
  words : list string;
  lookup : string → Z → list SuggestItem
}.

(** [compare] gives the distance, or -1 when it exceeds [max_distance]. *)
Definition compare_contract (cmp : EditDistance) : Prop :=
  ∀ a b m,
    (cmp a b m = -1 ∨ cmp a b m = lev a b) ∧
    (lev a b ≤ m → cmp a b m = lev a b).

(** every suggestion is a dictionary word within [max_edit_distance] *)
Definition lookup_sound (sym : SymSpell) : Prop :=
  ∀ text m s,
    s ∈ lookup sym text m →
    term s ∈ words sym ∧ distance s = lev text (term s) ∧ distance s ≤ m.

(** a dictionary word within [max_edit_distance] yields a suggestion *)
Definition lookup_complete (sym : SymSpell) : Prop :=
  ∀ text m w,
    w ∈ words sym → lev text w ≤ m → lookup sym text m ≠ [].

(** Reference implementations of the two interfaces. *)
Definition levenshtein_compare : EditDistance := λ a b m,
  if lev a b <=? m then lev a b else -1.

Definition suggestions (d : string → string → nat) (ws : list string)
    (text : string) (m : Z) : list SuggestItem :=
  List.filter (λ s, distance s <=? m)
    (map (λ w, mkSuggestItem w (Z.of_nat (d text w)) 1) ws).

Definition closest_lookup (d : string → string → nat) (ws : list string)
    (text : string) (m : Z) : list SuggestItem :=
  match suggestions d ws text m with
  | [] => []
  | c :: cs =>
      let best := fold_left Z.min (map distance cs) (distance c) in
      List.filter (λ s, distance s =? best) (c :: cs)
  end.

Definition closest_symspell (d : string → string → nat) (ws : list string)
  : SymSpell :=
  mkSymSpell ws (closest_lookup d ws).

(** ** MagicRecognition *)

Record MagicRecognition : Type := mkMagicRecognition {
  max_ratio_diff : Q;
  max_ratio_diff_keyword : Q;
  sym_all_cards : SymSpell;
  edit_dist : EditDistance;
  sym_keywords : SymSpell
}.

(** [self.all_cards = self.sym_all_cards._words] *)
Definition all_cards (self : MagicRecognition) : list string :=
  words (sym_all_cards self).

(** [__init__] from the card names and the keywords already read from the
    data files, with the reference implementations of the library: the card
    dictionary is switched to [levenshtein], the keyword dictionary keeps
    the default distance. *)
Definition init (ratio ratio_keyword : Q) (cards keywords : list string)
  : MagicRecognition :=
  mkMagicRecognition ratio ratio_keyword
    (closest_symspell levenshtein cards) levenshtein_compare
    (closest_symspell damerau_osa
       (keywords ++ ["Display"; "Land"; "Search"; "Profile"])%list).

Definition preprocess (text : string) : string :=
  rstrip (str_filter name_char text).

(** the budget [int(ratio * n)] *)
Definition budget (ratio : Q) (n : Z) : Z := py_int (ratio * inject_Z n)%Q.

(** one turn of the loop over [all_cards] on the truncated path *)
Definition prefix_step (cmp : EditDistance) (text : string) (i : Z)
    (st : option string * Z) (c : string) : option string * Z :=
  let '(card, dist) := st in
  let d := cmp (slice_to (Z.to_nat i) text) (slice_to (Z.to_nat i) c) dist in
  if negb (d =? -1) && (d <? dist) then (Some c, d) else (card, dist).

Definition prefix_search (cmp : EditDistance) (cards : list string)
    (text : string) (i : Z) (dist : Z) : option string * Z :=
  fold_left (prefix_step cmp text i) cards (None, dist).

Definition search (self : MagicRecognition) (text : string)
  : result (option string) :=
  if len text <? 3 then Ok None
  else if 30 <? len text then Ok None
  else if decide (text ∈ all_cards self) then Ok (Some text)
  else
    let i := find ".." text in
    if negb (i =? -1) then
      let dist := budget (max_ratio_diff self) i in
      let '(card, dist) :=
        prefix_search (edit_dist self) (all_cards self) text i dist in
      match card with
      | None => Ok None
      | Some card => _ ← py_div dist i; Ok (Some card)
      end
    else
      let text := rstrip (remove_dots text) in
      let sug :=
        lookup (sym_all_cards self) text
          (Z.min 6 (budget (max_ratio_diff self) (len text))) in
      match sug with
      | s :: _ =>
          let card := term s in
          _ ← py_div (distance s) (len text);
          if len text <? len card + 7 then Ok (Some card) else Ok None
      | [] => Ok None
      end.

(** ** Boxes and decks *)

(** Modelled from the spec: [BoxText] and [BoxTextList] of
    [mtgscan/box_text.py], which is not among the sources.  A box text has
    a geometry, of which only the representative point [(box[0], box[1])]
    is read, a text and a count [n] that defaults to 1; a [BoxTextList] is
    an ordered sequence of them, indexed from 0, and [add] appends. *)
Module BoxText.
Record t : Type := mk {
  box : Z * Z;
  text : string;
  n : Z
}.
End BoxText.

Abbreviation BoxTextList := (list BoxText.t).

Definition add (l : BoxTextList) (box : Z * Z) (text : string) : BoxTextList :=
  (l ++ [BoxText.mk box text 1])%list.

(** [l[i]] *)
Definition getitem (l : BoxTextList) (i : nat) : result BoxText.t :=
  match l !! i with
  | Some b => Ok b
  | None => Raise IndexError
  end.

(** [s[i]] *)
Definition getchar (s : string) (i : nat) : result ascii :=
  match String.get i s with
  | Some c => Ok c
  | None => Raise IndexError
  end.

(** Modelled from the spec: [Pile] and [Deck] of [mtgscan/deck.py], which
    is not among the sources.  A pile maps a card name to a quantity; a
    deck is a maindeck and a sideboard. *)
Record Pile : Type := mkPile { cards : gmap string Z }.

Record Deck : Type := mkDeck { maindeck : Pile; sideboard : Pile }.

Definition pile_total (p : Pile) : Z :=
  map_fold (λ (_ : string) (q acc : Z), q + acc) 0 (cards p).

(** ** The keyword filter and the resolver over a list of boxes *)

Fixpoint foldM {A B : Type} (f : A → B → result A) (a : A) (l : list B)
  : result A :=
  match l with
  | [] => Ok a
  | b :: l' => a' ← f a b; foldM f a' l'
  end.

(** the body of the loop of [box_texts_to_cards] *)
Definition box_text_to_card (self : MagicRecognition)
    (box_cards : BoxTextList) (bt : BoxText.t) : result BoxTextList :=
  let text := BoxText.text bt in
  let sug :=
    lookup (sym_keywords self) text
      (Z.min 3 (budget (max_ratio_diff_keyword self) (len text))) in
  match sug with
  | s :: _ => _ ← py_div (distance s) (len text); Ok box_cards
  | [] =>
      card ← search self (preprocess text);
      match card with
      | Some card => Ok (add box_cards (BoxText.box bt) card)
      | None => Ok box_cards
      end
  end.

Definition box_texts_to_cards (self : MagicRecognition)
    (box_texts : BoxTextList) : result BoxTextList :=
  foldM (box_text_to_card self) [] box_texts.

(** ** The quantity assigner *)

Definition dist (p q : Z * Z) : Z := (p.1 - q.1) ^ 2 + (p.2 - q.2) ^ 2.

Definition comp_md (box1 box2 box : Z * Z) : bool :=
  dist box box1 <? dist box box2.

Definition comp_sb (box1 box2 box : Z * Z) : bool :=
  if (box1.1 >? box.1) || (box1.2 >? box.2) then false
  else dist box box1 <? dist box box2.

(** [comp = (comp_md, comp_sb)], indexed by the position of the glyph *)
Definition comp (i : nat) : Z * Z → Z * Z → Z * Z → bool :=
  match i with
  | O => comp_md
  | _ => comp_sb
  end.

Definition set_n (b : BoxText.t) (m : Z) : BoxText.t :=
  BoxText.mk (BoxText.box b) (BoxText.text b) m.

Definition i_min_step (box_cards : BoxTextList) (cmp : Z * Z → Z * Z → bool)
    (i_min i : nat) : result nat :=
  bi ← getitem box_cards i;
  bmin ← getitem box_cards i_min;
  Ok (if cmp (BoxText.box bi) (BoxText.box bmin) then i else i_min).

Definition assign_stacked_one (box_cards : BoxTextList) (m : Z)
    (cmp : Z * Z → Z * Z → bool) : result BoxTextList :=
  i_min ← foldM (i_min_step box_cards cmp) O (seq 0 (length box_cards));
  b ← getitem box_cards i_min;
  Ok (<[i_min := set_n b m]> box_cards).

(** the body of [for i in [0, 1]] *)
Definition assign_label (bt : BoxText.t) (box_cards : BoxTextList) (i : nat)
  : result BoxTextList :=
  g ← getchar (BoxText.text bt) i;
  if times_char g then
    d ← getchar (BoxText.text bt) (1 - i);
    if isnumeric d then
      m ← int_of_char d;
      assign_stacked_one box_cards m
        (λ box1 box2, comp i box1 box2 (BoxText.box bt))
    else Ok box_cards
  else Ok box_cards.

Definition assign_stacked_step (box_cards : BoxTextList) (bt : BoxText.t)
  : result BoxTextList :=
  if len (BoxText.text bt) =? 2
  then foldM (assign_label bt) box_cards [0%nat; 1%nat]
  else Ok box_cards.

Definition assign_stacked (box_texts box_cards : BoxTextList)
  : result BoxTextList :=
  foldM assign_stacked_step box_cards box_texts.

(** ** The deck assembler *)

Definition add_cards (card : string) (deck : Pile) (p : Z) : Pile :=
  match cards deck !! card with
  | Some q => mkPile (<[card := q + p]> (cards deck))
  | None => if 0 <? p then mkPile (<[card := p]> (cards deck)) else deck
  end.

Definition n_cards (box_cards : BoxTextList) : Z :=
  foldr (λ c acc, BoxText.n c + acc) 0 box_cards.

Definition last_main_card (box_cards : BoxTextList) : Z :=
  Z.max 60 (n_cards box_cards - 15).

Definition assemble_step (last : Z) (st : Pile * Pile * Z) (c : BoxText.t)
  : Pile * Pile * Z :=
  let '(maindeck, sideboard, n_added) := st in
  let card := BoxText.text c in
  let n := BoxText.n c in
  let n_added_main := Z.max (Z.min n (last - n_added)) 0 in
  (add_cards card maindeck n_added_main,
   add_cards card sideboard (n - n_added_main),
   n_added + n).

(** lines 118 to 135 of [box_texts_to_stacked_cards] *)
Definition assemble (box_cards : BoxTextList) : Deck :=
  let '(maindeck, sideboard, _) :=
    fold_left (assemble_step (last_main_card box_cards)) box_cards
      (mkPile ∅, mkPile ∅, 0) in
  mkDeck maindeck sideboard.

(** [sort] stands for [BoxTextList.sort], which [mtgscan/box_text.py]
    defines; it only rearranges the boxes. *)
Definition box_texts_to_stacked_cards (sort : BoxTextList → BoxTextList)
    (self : MagicRecognition) (box_texts : BoxTextList) : result Deck :=
  let box_texts := sort box_texts in
  box_cards ← box_texts_to_cards self box_texts;
  box_cards ← assign_stacked box_texts box_cards;
  Ok (assemble box_cards).

(** What the spec says of the split, word for word: the share of the
    maindeck is [min(n, max(last_main_card − added, 0))], the remainder
    goes to the sideboard, and a pile sums the quantities of a name. *)
Definition merge (card : string) (pile : Pile) (p : Z) : Pile :=
  if p =? 0 then pile
  else mkPile (<[card := default 0 (cards pile !! card) + p]> (cards pile)).

Definition split_step (last : Z) (st : Pile * Pile * Z) (c : BoxText.t)
  : Pile * Pile * Z :=
  let '(maindeck, sideboard, added) := st in
  let to_main := Z.min (BoxText.n c) (Z.max (last - added) 0) in
  (merge (BoxText.text c) maindeck to_main,
   merge (BoxText.text c) sideboard (BoxText.n c - to_main),
   added + BoxText.n c).

Definition split_spec (box_cards : BoxTextList) : Deck :=
  let '(maindeck, sideboard, _) :=
    fold_left (split_step (Z.max 60 (n_cards box_cards - 15))) box_cards
      (mkPile ∅, mkPile ∅, 0) in
  mkDeck maindeck sideboard.

(** a two-character label: a multiplier glyph next to a character that
    [isnumeric] accepts, and the ones whose character is a digit *)
Definition numeric_label (text : string) : bool :=
  match text with
  | String a (String b "") =>
      (times_char a && isnumeric b) || (times_char b && isnumeric a)
  | _ => false
  end.

Definition count_label (text : string) : bool :=
  match text with
  | String a (String b "") =>
      (times_char a && isdecimal b) || (times_char b && isdecimal a)
  | _ => false
  end.

(** a count is never negative *)
Definition counted (b : BoxText.t) : Prop := 0 ≤ BoxText.n b.

(** the prefix distance of the truncated path *)
Definition prefix_dist (text : string) (i : Z) (c : string) : Z :=
  lev (slice_to (Z.to_nat i) text) (slice_to (Z.to_nat i) c).

(** the directional gate of [comp_sb] *)
Definition gate (label candidate : Z * Z) : bool :=
  (candidate.1 <=? label.1) && (candidate.2 <=? label.2).

(** the engine with another nearest-neighbour lookup over the same cards *)
Definition with_lookup (self : MagicRecognition)
    (lk : string → Z → list SuggestItem) : MagicRecognition :=
  mkMagicRecognition (max_ratio_diff self) (max_ratio_diff_keyword self)
    (mkSymSpell (all_cards self) lk) (edit_dist self) (sym_keywords self).

(** ** Small engines to run the definitions on, with the default ratios *)

Definition islands : MagicRecognition :=
  init (3 # 10) (2 # 10) ["Island"; "Island Sanctuary"] [].

Definition swamps : MagicRecognition :=
  init (3 # 10) (2 # 10) ["Swamp"; "Island"] ["Flying"].

Definition vintage : MagicRecognition :=
  init (3 # 10) (2 # 10) ["Fear"; "Asmoranomardicadaistinaculdacar"] ["Fear"].

(** Modelled from the spec: [BoxTextList.sort] of [mtgscan/box_text.py],
    which is not among the sources.  Top to bottom, then left to right: an
    insertion sort on [(y, x)]. *)
Definition box_le (a b : BoxText.t) : bool :=
  let '(xa, ya) := BoxText.box a in
  let '(xb, yb) := BoxText.box b in
  (ya <? yb) || ((ya =? yb) && (xa <=? xb)).

Fixpoint insert_box (b : BoxText.t) (l : BoxTextList) : BoxTextList :=
  match l with
  | [] => [b]
  | c :: l' => if box_le b c then b :: l else c :: insert_box b l'
  end.

Definition sort_boxes (l : BoxTextList) : BoxTextList :=
  foldr insert_box [] l.

(** ** The rest of [mtgscan/text.py] *)

(** lines 35 to 37 of [__init__]: a name of the dataset is cut at its
    first [" //"] before it is written to the card file *)
Definition front_face (card : string) : string :=
  let i := find " //" card in
  if negb (i =? -1) then slice_to (Z.to_nat i) card else card.

(** [concat_lists] of [__init__] *)
Definition concat_lists (LL : list (list string)) : list string :=
  fold_left (λ res L, (res ++ L)%list) LL [].

(** lines 58 and 59: the entries of the keyword dictionary, from the lists
    of the keyword file *)
Definition keyword_entries (data : list (list string)) : list string :=
  (concat_lists data ++ ["Display"; "Land"; "Search"; "Profile"])%list.

(** [preprocess_texts]: every text of the list is replaced in place *)
Definition preprocess_texts (box_texts : BoxTextList) : BoxTextList :=
  map (λ b, BoxText.mk (BoxText.box b) (preprocess (BoxText.text b))
              (BoxText.n b)) box_texts.

(** every character of a string passes a test *)
Fixpoint all_chars (keep : ascii → bool) (s : string) : bool :=
  match s with
  | "" => true
  | String c s' => keep c && all_chars keep s'
  end.

(** a suggestion is a dictionary word at most [max_edit_distance] longer
    than the phrase: what [lookup] keeps whatever its distance *)
Definition lookup_bounded (sym : SymSpell) : Prop :=
  ∀ text m s,
    s ∈ lookup sym text m →
    term s ∈ words sym ∧ len (term s) ≤ len text + m.

(** the quantity of a name in a pile, 0 when it is not a key *)
Definition qty (p : Pile) (k : string) : Z := default 0 (cards p !! k).

(** the copies the resolved boxes count for a name *)
Definition copies (k : string) (box_cards : BoxTextList) : Z :=
  foldr (λ c acc, (if decide (BoxText.text c = k) then BoxText.n c else 0)
                  + acc) 0 box_cards.

(** every quantity of a pile is positive *)
Definition positive_pile (p : Pile) : Prop :=
  ∀ k q, cards p !! k = Some q → 0 < q.

(** the squared distance from a label to the box at an index *)
Definition box_dist (l : BoxTextList) (label : Z * Z) (j : nat) : Z :=
  match l !! j with
  | Some b => dist label (BoxText.box b)
  | None => 0
  end.

(** whether the box at an index passes a test on its position *)
Definition box_test (l : BoxTextList) (g : Z * Z → bool) (j : nat) : bool :=
  match l !! j with
  | Some b => g (BoxText.box b)
  | None => false
  end.

(** * Properties *)

(** ** Arithmetic of the budgets *)

Lemma py_int_floor (q : Q) : 0 < py_int q → py_int q = Qfloor q.
Proof.
  destruct q as [a b]. unfold py_int, Qfloor. simpl. intros H.
  destruct (Z_lt_le_dec a 0) as [Hneg | Hpos].
  - exfalso.
    pose proof (Z.quot_opp_l a (Z.pos b) ltac:(lia)) as Ho.
    pose proof (Z.quot_pos (- a) (Z.pos b) ltac:(lia) ltac:(lia)). lia.
  - apply Z.quot_div_nonneg; lia.
Qed.

Lemma floor_le_py_int (q : Q) : Qfloor q ≤ py_int q.
Proof.
  destruct q as [a b]. unfold py_int, Qfloor. simpl.
  destruct (Z_lt_le_dec a 0) as [Hneg | Hpos].
  - pose proof (Z.quot_opp_l a (Z.pos b) ltac:(lia)) as Ho.
    rewrite (Z.quot_div_nonneg (- a) (Z.pos b)) in Ho by lia.
    pose proof (Z.div_mod a (Z.pos b) ltac:(lia)).
    pose proof (Z.mod_pos_bound a (Z.pos b) ltac:(lia)).
    pose proof (Z.div_mod (- a) (Z.pos b) ltac:(lia)).
    pose proof (Z.mod_pos_bound (- a) (Z.pos b) ltac:(lia)).
    nia.
  - rewrite Z.quot_div_nonneg by lia. lia.
Qed.

Lemma budget_zero (r : Q) : budget r 0 = 0.
Proof.
  unfold budget, py_int. destruct r as [a b]. simpl.
  rewrite Z.mul_0_r. apply Z.quot_0_l. lia.
Qed.

(** ** Strings *)

Lemma len_nonneg (s : string) : 0 ≤ len s.
Proof. unfold len. lia. Qed.

Lemma str_filter_length (keep : ascii → bool) (s : string) :
  (String.length (str_filter keep s) ≤ String.length s)%nat.
Proof.
  induction s as [| c s IH]; simpl; [lia |].
  destruct (keep c); simpl; lia.
Qed.

Lemma rstrip_length (s : string) :
  (String.length (rstrip s) ≤ String.length s)%nat.
Proof.
  induction s as [| c s IH]; simpl; [lia |].
  destruct (rstrip s) as [| c' r]; simpl in *.
  - destruct (Ascii.eqb c " "); simpl; lia.
  - lia.
Qed.

Lemma stripped_len (text : string) : len (rstrip (remove_dots text)) ≤ len text.
Proof.
  unfold len, remove_dots.
  pose proof (rstrip_length (str_filter (λ c, negb (Ascii.eqb c ".")) text)).
  pose proof (str_filter_length (λ c, negb (Ascii.eqb c ".")) text).
  lia.
Qed.

Lemma len_two (s : string) :
  len s = 2 → ∃ a b, s = String a (String b "").
Proof.
  unfold len. destruct s as [| a [| b [| c s]]]; simpl; intros H; try lia.
  eauto.
Qed.

(** ** The edit distances *)

Lemma levenshtein_cons_cons a s b t :
  levenshtein (String a s) (String b t) =
  Nat.min (Nat.min (S (levenshtein s (String b t)))
                   (S (levenshtein (String a s) t)))
          ((if Ascii.eqb a b then 0 else 1) + levenshtein s t).
Proof. reflexivity. Qed.

Lemma damerau_osa_cons_cons a s b t :
  damerau_osa (String a s) (String b t) =
  let d :=
    Nat.min (Nat.min (S (damerau_osa s (String b t)))
                     (S (damerau_osa (String a s) t)))
            ((if Ascii.eqb a b then 0 else 1) + damerau_osa s t) in
  match s, t with
  | String a2 s', String b2 t' =>
      if Ascii.eqb a b2 && Ascii.eqb a2 b
      then Nat.min d (S (damerau_osa s' t'))
      else d
  | _, _ => d
  end.
Proof. reflexivity. Qed.

(** two strings are at least as far apart as their lengths *)
Lemma levenshtein_length (s t : string) :
  (String.length t ≤ String.length s + levenshtein s t ∧
   String.length s ≤ String.length t + levenshtein s t)%nat.
Proof.
  revert t. induction s as [| a s IHs]; intros t.
  - simpl. lia.
  - induction t as [| b t IHt].
    + simpl. lia.
    + rewrite levenshtein_cons_cons.
      pose proof (IHs (String b t)) as H1. pose proof (IHs t) as H2.
      simpl String.length in *.
      destruct (Ascii.eqb a b); lia.
Qed.

Lemma lev_length (s t : string) : len t ≤ len s + lev s t.
Proof.
  unfold len, lev. pose proof (levenshtein_length s t). lia.
Qed.

Lemma lev_nonneg (s t : string) : 0 ≤ lev s t.
Proof. unfold lev. lia. Qed.

(** counting a swap as one edit can only shorten the distance *)
Lemma damerau_osa_le_levenshtein (s t : string) :
  (damerau_osa s t ≤ levenshtein s t)%nat.
Proof.
  revert t. induction s as [| a s IHs]; intros t.
  - simpl. lia.
  - induction t as [| b t IHt].
    + simpl. lia.
    + rewrite levenshtein_cons_cons, damerau_osa_cons_cons.
      pose proof (IHs (String b t)) as H1. pose proof (IHs t) as H2.
      cbv zeta.
      destruct s as [| a2 s']; [destruct (Ascii.eqb a b); lia |].
      destruct t as [| b2 t']; [destruct (Ascii.eqb a b); lia |].
      destruct (Ascii.eqb a b2 && Ascii.eqb a2 b), (Ascii.eqb a b); lia.
Qed.

(** ** The reference implementations meet the contracts *)

Lemma levenshtein_compare_contract : compare_contract levenshtein_compare.
Proof.
  intros a b m. unfold levenshtein_compare.
  destruct (Z.leb_spec (lev a b) m); split; auto; lia.
Qed.

Lemma suggestions_elem d ws text m s :
  s ∈ suggestions d ws text m ↔
  distance s ≤ m ∧ ∃ w, w ∈ ws ∧ s = mkSuggestItem w (Z.of_nat (d text w)) 1.
Proof.
  unfold suggestions.
  rewrite list_elem_of_In, List.filter_In, in_map_iff, Z.leb_le.
  split.
  - intros [(w & <- & Hw) Hm]. split; [done |].
    exists w. by rewrite list_elem_of_In.
  - intros [Hm (w & Hw & ->)]. split; [| done].
    exists w. by rewrite <- list_elem_of_In.
Qed.

Lemma closest_lookup_subset d ws text m s :
  s ∈ closest_lookup d ws text m → s ∈ suggestions d ws text m.
Proof.
  unfold closest_lookup.
  destruct (suggestions d ws text m) as [| c cs]; [done |].
  rewrite !list_elem_of_In, List.filter_In. tauto.
Qed.

Lemma closest_lookup_sound (ws : list string) :
  lookup_sound (closest_symspell levenshtein ws).
Proof.
  intros text m s Hs. simpl in Hs.
  apply closest_lookup_subset, suggestions_elem in Hs.
  destruct Hs as [Hm (w & Hw & ->)]. simpl in *. auto.
Qed.

Lemma fold_min_elem (l : list Z) (a : Z) :
  fold_left Z.min l a = a ∨ In (fold_left Z.min l a) l.
Proof.
  revert a. induction l as [| x l IH]; intros a; simpl; [auto |].
  destruct (IH (Z.min a x)) as [-> | H]; [| auto].
  destruct (Z.min_spec a x) as [[_ ->] | [_ ->]]; auto.
Qed.

Lemma closest_lookup_nonempty d ws text m :
  suggestions d ws text m ≠ [] → closest_lookup d ws text m ≠ [].
Proof.
  unfold closest_lookup.
  destruct (suggestions d ws text m) as [| c cs]; [done |]. intros _.
  set (best := fold_left Z.min (map distance cs) (distance c)).
  assert (∃ x, In x (c :: cs) ∧ distance x = best) as (x & Hx & Hbest).
  { destruct (fold_min_elem (map distance cs) (distance c)) as [H | H].
    - exists c. split; [by left | done].
    - apply in_map_iff in H as (x & Hd & Hx).
      exists x. split; [by right | done]. }
  intros Hnil.
  assert (In x (List.filter (λ s, distance s =? best) (c :: cs))) as Hin.
  { apply List.filter_In. split; [done |]. by apply Z.eqb_eq. }
  rewrite Hnil in Hin. destruct Hin.
Qed.

Lemma closest_lookup_complete d (ws : list string) :
  (∀ s t, (d s t ≤ levenshtein s t)%nat) →
  lookup_complete (closest_symspell d ws).
Proof.
  intros Hd text m w Hw Hm. simpl in *.
  apply closest_lookup_nonempty. intros Hnil.
  assert (mkSuggestItem w (Z.of_nat (d text w)) 1 ∈ suggestions d ws text m)
    as Hin.
  { apply suggestions_elem. simpl. split; [| eauto].
    unfold lev in Hm. specialize (Hd text w). lia. }
  rewrite Hnil in Hin. by apply not_elem_of_nil in Hin.
Qed.

(** ** The resolver: guards and exact path *)

Ltac guards :=
  repeat match goal with
  | |- context [?a <? ?b] => destruct (Z.ltb_spec a b); try lia
  | H : context [?a <? ?b] |- _ => destruct (Z.ltb_spec a b); try lia
  end.

(** C8. A text shorter than 3 or longer than 30 characters resolves to no
    match. *)
Theorem search_length_guard (self : MagicRecognition) (text : string) :
  len text < 3 ∨ 30 < len text → search self text = Ok None.
Proof.
  intros H. unfold search. guards; reflexivity.
Qed.

(** C1, amended. A name of the card index that is 3 to 30 characters long
    resolves to itself, before any truncated or fuzzy matching. *)
Theorem search_exact (self : MagicRecognition) (name : string) :
  name ∈ all_cards self → 3 ≤ len name ≤ 30 →
  search self name = Ok (Some name).
Proof.
  intros Hin Hlen. unfold search. guards.
  destruct (decide (name ∈ all_cards self)); [reflexivity | contradiction].
Qed.

(** ** The resolver: truncated path *)

Section Truncated.
Variable cmp : EditDistance.
Hypothesis cmp_ok : compare_contract cmp.
Variables (text : string) (i : Z).

Let pd := prefix_dist text i.

Lemma prefix_step_accept st c :
  pd c < st.2 → prefix_step cmp text i st c = (Some c, pd c).
Proof.
  destruct st as [card d]. simpl. intros Hlt.
  destruct (cmp_ok (slice_to (Z.to_nat i) text) (slice_to (Z.to_nat i) c) d)
    as [_ Heq].
  fold (prefix_dist text i c) in Heq. fold pd in Heq.
  rewrite Heq by lia.
  pose proof (lev_nonneg (slice_to (Z.to_nat i) text)
                (slice_to (Z.to_nat i) c)) as Hnn.
  fold (prefix_dist text i c) in Hnn. fold pd in Hnn.
  destruct (Z.eqb_spec (pd c) (-1)); [lia |].
  destruct (Z.ltb_spec (pd c) d); [reflexivity | lia].
Qed.

Lemma prefix_step_reject st c :
  st.2 ≤ pd c → prefix_step cmp text i st c = st.
Proof.
  destruct st as [card d]. simpl. intros Hle.
  destruct (cmp_ok (slice_to (Z.to_nat i) text) (slice_to (Z.to_nat i) c) d)
    as [[-> | ->] _].
  - reflexivity.
  - fold (prefix_dist text i c). fold pd.
    destruct (Z.ltb_spec (pd c) d); [lia |].
    by rewrite andb_false_r.
Qed.

(** The loop keeps its state when no entry is below the current bound;
    otherwise it ends on the first entry of least prefix distance. *)
Lemma prefix_loop (l : list string) (st : option string * Z) :
  (fold_left (prefix_step cmp text i) l st = st ∧
   ∀ c, c ∈ l → st.2 ≤ pd c) ∨
  (∃ l1 c l2,
      l = (l1 ++ c :: l2)%list ∧
      fold_left (prefix_step cmp text i) l st = (Some c, pd c) ∧
      pd c < st.2 ∧
      (∀ c', c' ∈ l1 → pd c < pd c') ∧
      (∀ c', c' ∈ l2 → pd c ≤ pd c')).
Proof.
  revert st. induction l as [| c l IH]; intros st.
  - left. split; [reflexivity |]. intros c Hc. by apply not_elem_of_nil in Hc.
  - simpl. destruct (Z_lt_le_dec (pd c) st.2) as [Hlt | Hle].
    + rewrite prefix_step_accept by done. right.
      destruct (IH (Some c, pd c)) as [[Heq Hall] | (l1 & c' & l2 & -> & Heq & Hlt' & H1 & H2)].
      * exists [], c, l. simpl in *. repeat split; auto.
        intros c' Hc'. by apply not_elem_of_nil in Hc'.
      * exists (c :: l1), c', l2. simpl in *. repeat split; auto; [lia |].
        intros x [-> | Hx]%elem_of_cons; [lia | auto].
    + rewrite prefix_step_reject by done.
      destruct (IH st) as [[Heq Hall] | (l1 & c' & l2 & -> & Heq & Hlt' & H1 & H2)].
      * left. split; [done |].
        intros x [-> | Hx]%elem_of_cons; auto.
      * right. exists (c :: l1), c', l2. simpl. repeat split; auto.
        intros x [-> | Hx]%elem_of_cons; [lia | auto].
Qed.
End Truncated.

(** whatever [compare] answers, the loop only ever picks an entry *)
Lemma prefix_loop_member cmp text i (l : list string) st :
  (fold_left (prefix_step cmp text i) l st).1 = st.1 ∨
  ∃ c, c ∈ l ∧ (fold_left (prefix_step cmp text i) l st).1 = Some c.
Proof.
  revert st. induction l as [| c l IH]; intros st; simpl; [by left |].
  destruct (IH (prefix_step cmp text i st c)) as [Heq | (c' & Hc' & Heq)].
  - rewrite Heq. destruct st as [card d]. simpl.
    destruct (_ && _); simpl; [right | by left].
    exists c. split; [by left | done].
  - right. exists c'. split; [by right | done].
Qed.

Lemma search_truncated_eq (self : MagicRecognition) (text : string) (i : Z) :
  3 ≤ len text ≤ 30 → text ∉ all_cards self →
  find ".." text = i → i ≠ -1 →
  search self text =
  match prefix_search (edit_dist self) (all_cards self) text i
          (budget (max_ratio_diff self) i) with
  | (None, _) => Ok None
  | (Some card, dist) => _ ← py_div dist i; Ok (Some card)
  end.
Proof.
  intros Hlen Hnot Hfind Hi. unfold search. guards.
  destruct (decide (text ∈ all_cards self)); [contradiction |].
  rewrite Hfind. destruct (Z.eqb_spec i (-1)); [contradiction |]. simpl.
  by destruct (prefix_search _ _ _ _ _) as [[c |] d].
Qed.

(** C2, amended. On the truncated path the resolver returns without
    raising; a returned candidate has a prefix distance strictly below
    [floor(name_ratio * i)], strictly below that of every entry listed
    before it and not above that of any entry listed after it; when no
    entry is below the bound the result is no match; and the result does
    not depend on the nearest-neighbour lookup of the fuzzy path. *)
Theorem search_truncated (self : MagicRecognition) (text : string) (i : Z) :
  compare_contract (edit_dist self) →
  3 ≤ len text ≤ 30 → text ∉ all_cards self →
  find ".." text = i → i ≠ -1 →
  let bound := Qfloor (max_ratio_diff self * inject_Z i) in
  (∃ r, search self text = Ok r) ∧
  (∀ c, search self text = Ok (Some c) →
     prefix_dist text i c < bound ∧
     ∃ l1 l2,
       all_cards self = (l1 ++ c :: l2)%list ∧
       (∀ c', c' ∈ l1 → prefix_dist text i c < prefix_dist text i c') ∧
       (∀ c', c' ∈ l2 → prefix_dist text i c ≤ prefix_dist text i c')) ∧
  ((∀ c, c ∈ all_cards self → bound ≤ prefix_dist text i c) →
   search self text = Ok None) ∧
  (∀ lk, search (with_lookup self lk) text = search self text).
Proof.
  intros Hcmp Hlen Hnot Hfind Hi bound.
  assert (∀ lk, search (with_lookup self lk) text = search self text) as Hlk.
  { intros lk.
    rewrite (search_truncated_eq self text i) by done.
    by rewrite (search_truncated_eq (with_lookup self lk) text i). }
  match goal with
  | |- ?A ∧ ?B ∧ ?C ∧ _ =>
      assert (A ∧ B ∧ C) as (HA & HB & HC);
        [| exact (conj HA (conj HB (conj HC Hlk)))]
  end.
  rewrite (search_truncated_eq self text i) by done.
  unfold prefix_search.
  set (b := budget (max_ratio_diff self) i).
  assert (0 < b → b = bound) as Hb by apply py_int_floor.
  assert (bound ≤ b) as Hb' by apply floor_le_py_int.
  destruct (prefix_loop (edit_dist self) Hcmp text i (all_cards self) (None, b))
    as [[-> Hall] | (l1 & c & l2 & Hl & -> & Hlt & H1 & H2)]; simpl in *.
  - split_and!; [eauto | intros c [=] | done].
  - pose proof (lev_nonneg (slice_to (Z.to_nat i) text)
                  (slice_to (Z.to_nat i) c)) as Hnn.
    fold (prefix_dist text i c) in Hnn.
    assert (i ≠ 0) as Hi0.
    { intros ->. unfold b in Hlt. rewrite budget_zero in Hlt. lia. }
    unfold py_div. destruct (Z.eqb_spec i 0); [contradiction |]. simpl.
    split_and!; [eauto | |].
    + intros c' [= <-]. split; [lia |]. eauto.
    + intros Hge. exfalso.
      assert (c ∈ all_cards self) as Hc.
      { rewrite Hl. apply elem_of_app. right. by left. }
      specialize (Hge c Hc). lia.
Qed.

(** ** The resolver: fuzzy path *)

(** C3. On the fuzzy path an accepted candidate is shorter than the
    looked-up text plus 7, hence shorter than the given text plus 7: a
    candidate of exactly that length is never returned. *)
Theorem search_fuzzy_length (self : MagicRecognition) (text card : string) :
  lookup_sound (sym_all_cards self) →
  text ∉ all_cards self → find ".." text = -1 →
  search self text = Ok (Some card) →
  len card < len (rstrip (remove_dots text)) + 7 ∧ len card < len text + 7.
Proof.
  intros Hsound Hnot Hfind. unfold search.
  destruct (len text <? 3); [discriminate |].
  destruct (30 <? len text); [discriminate |].
  destruct (decide (text ∈ all_cards self)); [contradiction |].
  rewrite Hfind. simpl.
  set (stripped := rstrip (remove_dots text)).
  set (m := Z.min 6 _).
  destruct (lookup (sym_all_cards self) stripped m) as [| s sug] eqn:Hsug;
    [discriminate |].
  destruct (Hsound stripped m s) as (_ & Hd & Hm).
  { rewrite Hsug. by left. }
  unfold py_div. destruct (len stripped =? 0); [discriminate |]. simpl.
  destruct (len stripped <? len (term s) + 7); [| discriminate].
  intros [= <-].
  pose proof (lev_length stripped (term s)).
  pose proof (stripped_len text). fold stripped in H0.
  subst m. lia.
Qed.

(** the guard of the fuzzy path never turns a suggestion down *)
Lemma fuzzy_guard_holds (sym : SymSpell) (text : string) (m : Z) s :
  lookup_sound sym → s ∈ lookup sym text (Z.min 6 m) →
  len text < len (term s) + 7.
Proof.
  intros Hsound Hs. destruct (Hsound _ _ _ Hs) as (_ & Hd & Hm).
  pose proof (lev_length (term s) text) as Hl.
  unfold len, lev in *.
  pose proof (levenshtein_length text (term s)). lia.
Qed.

(** every name the resolver returns is an entry of the card index *)
Lemma search_in_index (self : MagicRecognition) (text card : string) :
  lookup_sound (sym_all_cards self) →
  search self text = Ok (Some card) → card ∈ all_cards self.
Proof.
  intros Hsound. unfold search.
  destruct (len text <? 3); [discriminate |].
  destruct (30 <? len text); [discriminate |].
  destruct (decide (text ∈ all_cards self)) as [Hin | _];
    [by intros [= <-] |].
  destruct (negb (find ".." text =? -1)).
  - unfold prefix_search.
    destruct (prefix_loop_member (edit_dist self) text (find ".." text)
                (all_cards self)
                (None, budget (max_ratio_diff self) (find ".." text)))
      as [Heq | (c & Hc & Heq)];
      destruct (fold_left _ _ _) as [[c' |] d]; simpl in *;
      try discriminate.
    injection Heq as ->.
    destruct (py_div d (find ".." text)); simpl; [| discriminate].
    by intros [= <-].
  - set (stripped := rstrip (remove_dots text)).
    set (m := Z.min 6 _).
    destruct (lookup (sym_all_cards self) stripped m) as [| s sug] eqn:Hsug;
      [discriminate |].
    destruct (Hsound stripped m s) as (Hw & _).
    { rewrite Hsug. by left. }
    destruct (py_div _ _); simpl; [| discriminate].
    destruct (_ <? _); [| discriminate].
    by intros [= <-].
Qed.

(** ** Loops that can raise *)

Lemma foldM_app {A B : Type} (f : A → B → result A) (l1 l2 : list B) (a : A) :
  foldM f a (l1 ++ l2)%list = (a' ← foldM f a l1; foldM f a' l2).
Proof.
  revert a. induction l1 as [| b l1 IH]; intros a; simpl; [reflexivity |].
  destruct (f a b) as [a' | e]; simpl; [apply IH | reflexivity].
Qed.

Lemma foldM_invariant {A B : Type} (P : A → Prop) (f : A → B → result A)
    (l : list B) (a a' : A) :
  (∀ x b y, P x → f x b = Ok y → P y) →
  P a → foldM f a l = Ok a' → P a'.
Proof.
  intros Hstep. revert a. induction l as [| b l IH]; intros a Ha; simpl.
  - by intros [= <-].
  - destruct (f a b) as [y | e] eqn:Hf; simpl; [| discriminate].
    apply IH. by eapply Hstep.
Qed.

(** ** The keyword filter *)

Lemma len_zero (s : string) : len s = 0 → s = "".
Proof. unfold len. destruct s; simpl; [done | lia]. Qed.

(** C4, amended. A box whose text, as stored in the box and not empty, is
    within [min(3, floor(keyword_ratio * L))] edits of a keyword is
    dropped: the step returns the resolved list it was given, whatever the
    card index, so the list of boxes resolves as it does without that
    box. *)
Theorem keyword_precedence (self : MagicRecognition) (bt : BoxText.t)
    (k : string) :
  lookup_complete (sym_keywords self) →
  k ∈ words (sym_keywords self) →
  BoxText.text bt ≠ "" →
  lev (BoxText.text bt) k ≤
    Z.min 3 (Qfloor (max_ratio_diff_keyword self
                     * inject_Z (len (BoxText.text bt)))) →
  (∀ box_cards, box_text_to_card self box_cards bt = Ok box_cards) ∧
  (∀ l1 l2,
     box_texts_to_cards self (l1 ++ bt :: l2)%list =
     box_texts_to_cards self (l1 ++ l2)%list).
Proof.
  intros Hcomplete Hk Hne Hdist.
  assert (∀ box_cards, box_text_to_card self box_cards bt = Ok box_cards)
    as Hstep.
  { intros box_cards. unfold box_text_to_card.
    set (m := Z.min 3 _).
    assert (lookup (sym_keywords self) (BoxText.text bt) m ≠ []) as Hsug.
    { apply (Hcomplete _ _ k Hk). subst m. unfold budget.
      pose proof (floor_le_py_int
                    (max_ratio_diff_keyword self
                     * inject_Z (len (BoxText.text bt)))).
      lia. }
    destruct (lookup (sym_keywords self) (BoxText.text bt) m) as [| s sug];
      [done |].
    unfold py_div.
    destruct (Z.eqb_spec (len (BoxText.text bt)) 0) as [H0 | _];
      [by apply len_zero in H0 | reflexivity]. }
  split; [exact Hstep |].
  intros l1 l2. unfold box_texts_to_cards. rewrite !foldM_app.
  destruct (foldM (box_text_to_card self) [] l1) as [a | e]; simpl;
    [| reflexivity].
  by rewrite Hstep.
Qed.

(** the log message of a rejection divides by the length of the text *)
Lemma keyword_rejected_empty_text (self : MagicRecognition)
    (bt : BoxText.t) (box_cards : BoxTextList) :
  BoxText.text bt = "" →
  lookup (sym_keywords self) ""
    (Z.min 3 (budget (max_ratio_diff_keyword self) 0)) ≠ [] →
  box_text_to_card self box_cards bt = Raise ZeroDivisionError.
Proof.
  intros Htext Hsug. unfold box_text_to_card. rewrite Htext.
  change (len "") with 0.
  by destruct (lookup (sym_keywords self) "" _) as [| s sug].
Qed.

(** ** The quantity assigner *)

Lemma int_of_char_range (c : ascii) (m : Z) :
  int_of_char c = Ok m → 0 ≤ m ≤ 9.
Proof.
  unfold int_of_char, isdecimal, in_range.
  destruct (_ && _) eqn:H; [| discriminate].
  apply andb_true_iff in H as [H1%Nat.leb_le H2%Nat.leb_le].
  intros [= <-]. lia.
Qed.

Lemma isdecimal_isnumeric (c : ascii) : isdecimal c = true → isnumeric c = true.
Proof. unfold isnumeric. by intros ->. Qed.

(** a multiplier glyph is not a numeric character *)
Lemma times_char_not_numeric (c : ascii) :
  times_char c = true → isnumeric c = false.
Proof.
  destruct c as [[] [] [] [] [] [] [] []]; vm_compute; congruence.
Qed.

Lemma getitem_lookup (l : BoxTextList) (i : nat) :
  (∃ b, l !! i = Some b ∧ getitem l i = Ok b) ∨
  (l !! i = None ∧ getitem l i = Raise IndexError).
Proof. unfold getitem. destruct (l !! i); eauto. Qed.

Lemma getitem_nil (i : nat) : getitem [] i = Raise IndexError.
Proof. reflexivity. Qed.

(** on an empty list the search for the nearest box is skipped and the
    write to index 0 is out of range *)
Lemma assign_stacked_one_nil (m : Z) cmp :
  assign_stacked_one [] m cmp = Raise IndexError.
Proof. reflexivity. Qed.

Section AssignPreserves.
Variable P : BoxText.t → Prop.
Hypothesis P_set_n : ∀ b m, P b → 0 ≤ m ≤ 9 → P (set_n b m).

Lemma assign_stacked_one_Forall box_cards m cmp r :
  0 ≤ m ≤ 9 → Forall P box_cards →
  assign_stacked_one box_cards m cmp = Ok r → Forall P r.
Proof.
  intros Hm HP. unfold assign_stacked_one.
  destruct (foldM _ _ _) as [i_min | e]; simpl; [| discriminate].
  unfold getitem.
  destruct (box_cards !! i_min) as [b |] eqn:Hb; simpl; [| discriminate].
  intros [= <-]. apply Forall_insert; [done |].
  apply P_set_n; [| done]. by eapply Forall_lookup_1.
Qed.

Lemma assign_label_Forall bt box_cards i r :
  Forall P box_cards → assign_label bt box_cards i = Ok r → Forall P r.
Proof.
  intros HP. unfold assign_label.
  destruct (getchar (BoxText.text bt) i) as [g | e]; simpl; [| discriminate].
  destruct (times_char g); [| by intros [= <-]].
  destruct (getchar (BoxText.text bt) (1 - i)) as [d | e]; simpl;
    [| discriminate].
  destruct (isnumeric d); [| by intros [= <-]].
  destruct (int_of_char d) as [m | e] eqn:Hm; simpl; [| discriminate].
  apply assign_stacked_one_Forall; [| done].
  by eapply int_of_char_range.
Qed.

Lemma assign_stacked_Forall box_texts box_cards r :
  Forall P box_cards → assign_stacked box_texts box_cards = Ok r →
  Forall P r.
Proof.
  unfold assign_stacked. intros HP.
  apply (foldM_invariant (Forall P)); [| done].
  intros x bt y Hx. unfold assign_stacked_step.
  destruct (_ =? _); [| by intros [= <-]].
  apply (foldM_invariant (Forall P)); [| done].
  intros x' i y' Hx'. by apply assign_label_Forall.
Qed.
End AssignPreserves.

(** C10, amended. With no resolved card, a box list that holds a
    two-character count label makes the quantity assigner fail, by the
    out-of-range access to index 0 of the empty list or by [int] refusing
    the character of a label; the failure is the out-of-range access
    whenever every label that [isnumeric] accepts carries a digit. *)
Theorem assign_stacked_empty_fails (box_texts : BoxTextList) :
  Exists (λ bt, count_label (BoxText.text bt) = true) box_texts →
  (assign_stacked box_texts [] = Raise IndexError ∨
   assign_stacked box_texts [] = Raise ValueError) ∧
  (Forall (λ bt, numeric_label (BoxText.text bt) = true →
                 count_label (BoxText.text bt) = true) box_texts →
   assign_stacked box_texts [] = Raise IndexError).
Proof.
  unfold assign_stacked.
  induction box_texts as [| bt l IH]; intros Hex; [by inversion Hex |].
  assert (assign_stacked_step [] bt = Ok [] ∧
          count_label (BoxText.text bt) = false ∨
          assign_stacked_step [] bt = Raise IndexError ∨
          assign_stacked_step [] bt = Raise ValueError ∧
          numeric_label (BoxText.text bt) = true ∧
          count_label (BoxText.text bt) = false) as Hstep.
  { unfold assign_stacked_step. clear IH Hex.
    destruct bt as [bx tx nx]. cbn [BoxText.text].
    destruct (Z.eqb_spec (len tx) 2) as [H2 | H2].
    - destruct (len_two _ H2) as (a & b & ->).
      pose proof (isdecimal_isnumeric a) as Ha.
      pose proof (isdecimal_isnumeric b) as Hb.
      pose proof (times_char_not_numeric a) as Hta.
      pose proof (times_char_not_numeric b) as Htb.
      unfold assign_label, int_of_char, count_label, numeric_label.
      cbn -[isnumeric isdecimal times_char nat_of_ascii Z.of_nat Z.sub].
      destruct (times_char a), (times_char b),
        (isdecimal a), (isdecimal b), (isnumeric a), (isnumeric b);
        try discriminate (Ha eq_refl); try discriminate (Hb eq_refl);
        try discriminate (Hta eq_refl); try discriminate (Htb eq_refl);
        cbn; auto.
    - left. split; [reflexivity |].
      destruct tx as [| a [| b [| c s]]]; try reflexivity.
      by destruct H2. }
  simpl.
  destruct Hstep as [[-> Hno] | [-> | (-> & Hnum & Hno)]]; simpl.
  - apply Exists_cons in Hex as [Hbt | Hl]; [congruence |].
    destruct (IH Hl) as [He Hidx]. split; [done |].
    intros Hall. apply Hidx. by apply Forall_cons in Hall as [_ ?].
  - split; [by left | reflexivity].
  - split; [by right |].
    intros Hall. apply Forall_cons in Hall as [Hbt _].
    specialize (Hbt Hnum). congruence.
Qed.

(** [comp_sb] is the gate followed by the comparison of the distances *)
Lemma comp_sb_gate (box1 box2 box : Z * Z) :
  comp_sb box1 box2 box = gate box box1 && (dist box box1 <? dist box box2).
Proof.
  unfold comp_sb, gate.
  destruct (Z.gtb_spec box1.1 box.1), (Z.gtb_spec box1.2 box.2),
    (Z.leb_spec box1.1 box.1), (Z.leb_spec box1.2 box.2);
    simpl; try reflexivity; lia.
Qed.

(** the gate is only asked of a challenger: the box the loop ends on is
    the one at index 0 or one that passes the gate *)
Lemma constrained_choice (box_cards : BoxTextList) (label : Z * Z)
    (l : list nat) (i_min : nat) :
  foldM (i_min_step box_cards (λ box1 box2, comp_sb box1 box2 label)) O l
    = Ok i_min →
  i_min = O ∨
  ∃ b, box_cards !! i_min = Some b ∧ gate label (BoxText.box b) = true.
Proof.
  apply (foldM_invariant
           (λ k, k = O ∨
                 ∃ b, box_cards !! k = Some b ∧
                      gate label (BoxText.box b) = true)); [| by left].
  intros k i k' Hk. unfold i_min_step.
  destruct (getitem_lookup box_cards i) as [(bi & Hi & ->) | (_ & ->)];
    simpl; [| discriminate].
  destruct (getitem_lookup box_cards k) as [(bk & Hbk & ->) | (_ & ->)];
    simpl; [| discriminate].
  rewrite comp_sb_gate.
  destruct (gate label (BoxText.box bi)) eqn:Hg; simpl.
  - destruct (_ <? _); intros [= <-]; [| done].
    right. by exists bi.
  - by intros [= <-].
Qed.

(** C7. The gated comparator does not keep a box that fails the gate from
    being chosen: with the label "4x" at (8, 8), the first card at (10, 0),
    right of the label, and the second at (0, 5), up and left of it, the
    count 4 is written to the first card; it is written to it as well when
    it is the only card. *)
Theorem assign_stacked_gate_bypassed :
  let label := BoxText.mk (8, 8) "4x" 1 in
  let first := BoxText.mk (10, 0) "Island" 1 in
  let second := BoxText.mk (0, 5) "Swamp" 1 in
  gate (BoxText.box label) (BoxText.box first) = false ∧
  gate (BoxText.box label) (BoxText.box second) = true ∧
  assign_stacked [label] [first; second] = Ok [set_n first 4; second] ∧
  assign_stacked [label] [first] = Ok [set_n first 4].
Proof. repeat split. Qed.

(** ** Piles *)

Lemma pile_total_empty : pile_total (mkPile ∅) = 0.
Proof. unfold pile_total. simpl. apply map_fold_empty. Qed.

Lemma pile_total_insert (m : gmap string Z) (k : string) (v : Z) :
  m !! k = None →
  pile_total (mkPile (<[k := v]> m)) = v + pile_total (mkPile m).
Proof.
  intros Hk. unfold pile_total. simpl.
  rewrite map_fold_insert_L; [reflexivity | | done].
  intros. lia.
Qed.

Lemma pile_total_update (m : gmap string Z) (k : string) (q v : Z) :
  m !! k = Some q →
  pile_total (mkPile (<[k := v]> m)) = v + pile_total (mkPile m) - q.
Proof.
  intros Hk. rewrite <- insert_delete_eq.
  rewrite pile_total_insert by apply lookup_delete_eq.
  unfold pile_total. simpl.
  rewrite (map_fold_delete_L _ _ k q m); [lia | | done].
  intros. lia.
Qed.

Lemma add_cards_total (card : string) (deck : Pile) (p : Z) :
  0 ≤ p → pile_total (add_cards card deck p) = pile_total deck + p.
Proof.
  intros Hp. unfold add_cards. destruct deck as [m]. simpl.
  destruct (m !! card) as [q |] eqn:Hq.
  - rewrite (pile_total_update m card q) by done. lia.
  - destruct (Z.ltb_spec 0 p).
    + rewrite pile_total_insert by done. lia.
    + lia.
Qed.

Lemma add_cards_zero (card : string) (deck : Pile) :
  add_cards card deck 0 = deck.
Proof.
  unfold add_cards. destruct deck as [m]. simpl.
  destruct (m !! card) as [q |] eqn:Hq; [| reflexivity].
  by rewrite Z.add_0_r, insert_id.
Qed.

Lemma add_cards_merge (card : string) (deck : Pile) (p : Z) :
  0 ≤ p → add_cards card deck p = merge card deck p.
Proof.
  intros Hp. unfold merge.
  destruct (Z.eqb_spec p 0) as [-> | Hne]; [apply add_cards_zero |].
  unfold add_cards. destruct (cards deck !! card) as [q |]; simpl.
  - reflexivity.
  - destruct (Z.ltb_spec 0 p); [reflexivity | lia].
Qed.

Lemma add_cards_dom (card : string) (deck : Pile) (p : Z) (k : string) :
  k ∈ dom (cards (add_cards card deck p)) →
  k = card ∨ k ∈ dom (cards deck).
Proof.
  unfold add_cards.
  destruct (cards deck !! card) as [q |]; [| destruct (0 <? p)]; simpl;
    rewrite ?dom_insert_L; set_solver.
Qed.

(** ** The deck assembler *)

Lemma n_cards_nonneg (l : BoxTextList) : Forall counted l → 0 ≤ n_cards l.
Proof.
  induction 1 as [| b l Hb _ IH]; simpl; [lia |]. unfold counted in Hb. lia.
Qed.

Lemma n_cards_app (l1 l2 : BoxTextList) :
  n_cards (l1 ++ l2)%list = n_cards l1 + n_cards l2.
Proof. induction l1 as [| b l1 IH]; simpl; lia. Qed.

(** After the loop has walked [l] from [added] units, the maindeck has
    gained the units that fall below [last] and the sideboard the others. *)
Lemma assemble_loop_totals (last : Z) (l : BoxTextList) :
  Forall counted l →
  ∀ main side added,
    let r := fold_left (assemble_step last) l (main, side, added) in
    let gained := Z.min (added + n_cards l) last - Z.min added last in
    r.2 = added + n_cards l ∧
    pile_total r.1.1 = pile_total main + gained ∧
    pile_total r.1.2 = pile_total side + (n_cards l - gained).
Proof.
  induction 1 as [| b l Hb Hl IH]; intros main side added; simpl.
  - lia.
  - unfold counted in Hb.
    set (p := Z.max (Z.min (BoxText.n b) (last - added)) 0).
    specialize (IH (add_cards (BoxText.text b) main p)
                   (add_cards (BoxText.text b) side (BoxText.n b - p))
                   (added + BoxText.n b)).
    simpl in IH. destruct IH as (Ha & Hm & Hs).
    rewrite Ha, Hm, Hs, !add_cards_total by lia. lia.
Qed.

Lemma assemble_loop_side (last : Z) (l : BoxTextList) :
  Forall counted l →
  ∀ main side added,
    added + n_cards l ≤ last →
    (fold_left (assemble_step last) l (main, side, added)).1.2 = side.
Proof.
  induction 1 as [| b l Hb Hl IH]; intros main side added Hle; simpl;
    [reflexivity |].
  unfold counted in Hb. pose proof (n_cards_nonneg l Hl). simpl in Hle.
  replace (Z.max (Z.min (BoxText.n b) (last - added)) 0)
    with (BoxText.n b) by lia.
  rewrite Z.sub_diag, add_cards_zero. apply IH. lia.
Qed.

Lemma assemble_loop_split (last : Z) (l : BoxTextList) :
  Forall counted l →
  ∀ st, fold_left (assemble_step last) l st = fold_left (split_step last) l st.
Proof.
  induction 1 as [| b l Hb Hl IH]; intros [[main side] added]; simpl;
    [reflexivity |].
  unfold counted in Hb.
  replace (Z.max (Z.min (BoxText.n b) (last - added)) 0)
    with (Z.min (BoxText.n b) (Z.max (last - added) 0)) by lia.
  rewrite !add_cards_merge by lia. apply IH.
Qed.

Lemma assemble_loop_keys (last : Z) (l : BoxTextList) :
  ∀ main side added k,
    let r := fold_left (assemble_step last) l (main, side, added) in
    k ∈ dom (cards r.1.1) ∨ k ∈ dom (cards r.1.2) →
    (k ∈ dom (cards main) ∨ k ∈ dom (cards side)) ∨
    ∃ b, b ∈ l ∧ BoxText.text b = k.
Proof.
  induction l as [| b l IH]; intros main side added k; simpl; [by left |].
  intros Hk. apply IH in Hk as [[Hk | Hk] | (b' & Hb' & Heq)].
  - apply add_cards_dom in Hk as [-> | Hk]; [right | left; by left].
    exists b. split; [by left | done].
  - apply add_cards_dom in Hk as [-> | Hk]; [right | left; by right].
    exists b. split; [by left | done].
  - right. exists b'. split; [by right | done].
Qed.

Lemma assemble_eq (box_cards : BoxTextList) :
  assemble box_cards =
  let r := fold_left (assemble_step (last_main_card box_cards)) box_cards
             (mkPile ∅, mkPile ∅, 0) in
  mkDeck r.1.1 r.1.2.
Proof. unfold assemble. by destruct (fold_left _ _ _) as [[m s] a]. Qed.

Lemma assemble_totals (box_cards : BoxTextList) :
  Forall counted box_cards →
  let main := Z.min (n_cards box_cards) (last_main_card box_cards) in
  pile_total (maindeck (assemble box_cards)) = main ∧
  pile_total (sideboard (assemble box_cards)) = n_cards box_cards - main.
Proof.
  intros Hn. rewrite assemble_eq. cbv zeta. simpl maindeck. simpl sideboard.
  pose proof (n_cards_nonneg _ Hn) as Hpos.
  pose proof (assemble_loop_totals (last_main_card box_cards) box_cards Hn
                (mkPile ∅) (mkPile ∅) 0) as (_ & Hm & Hs).
  cbv zeta in Hm, Hs. rewrite pile_total_empty in Hm, Hs.
  unfold last_main_card in *. lia.
Qed.

(** C5. For a resolved list with counts that are not negative, the two
    piles hold together as many copies as the list counts; when these are
    at most 60, the maindeck holds them all and the sideboard is empty. *)
Theorem deck_split_conservation (box_cards : BoxTextList) :
  Forall counted box_cards →
  let deck := assemble box_cards in
  pile_total (maindeck deck) + pile_total (sideboard deck)
    = n_cards box_cards ∧
  (n_cards box_cards ≤ 60 →
   pile_total (maindeck deck) = n_cards box_cards ∧
   sideboard deck = mkPile ∅).
Proof.
  intros Hn. cbv zeta.
  pose proof (n_cards_nonneg _ Hn) as Hpos.
  destruct (assemble_totals box_cards Hn) as [Hm Hs]. cbv zeta in Hm, Hs.
  split; [lia |]. intros H60. unfold last_main_card in *.
  split; [lia |].
  rewrite assemble_eq. simpl.
  apply assemble_loop_side; [done | unfold last_main_card; lia].
Qed.

(** C6. For a resolved list with counts that are not negative, the
    assembler is the split the spec describes, with
    [last_main_card = max(60, total − 15)]: after any leading part of the
    list the maindeck holds the units below [last_main_card] and the
    sideboard the rest, so of 65 units 60 go to the maindeck and 5 to the
    sideboard. *)
Theorem deck_split_rule (box_cards : BoxTextList) :
  Forall counted box_cards →
  let last := Z.max 60 (n_cards box_cards - 15) in
  assemble box_cards = split_spec box_cards ∧
  (∀ l1 l2, box_cards = (l1 ++ l2)%list →
     let r := fold_left (assemble_step (last_main_card box_cards)) l1
                (mkPile ∅, mkPile ∅, 0) in
     pile_total r.1.1 = Z.min (n_cards l1) last ∧
     pile_total r.1.2 = n_cards l1 - Z.min (n_cards l1) last) ∧
  (n_cards box_cards = 65 →
   pile_total (maindeck (assemble box_cards)) = 60 ∧
   pile_total (sideboard (assemble box_cards)) = 5).
Proof.
  intros Hn last.
  assert (∀ l1 l2, box_cards = (l1 ++ l2)%list →
     let r := fold_left (assemble_step (last_main_card box_cards)) l1
                (mkPile ∅, mkPile ∅, 0) in
     pile_total r.1.1 = Z.min (n_cards l1) last ∧
     pile_total r.1.2 = n_cards l1 - Z.min (n_cards l1) last) as Hprefix.
  { intros l1 l2 ->. apply Forall_app in Hn as [Hn1 Hn2].
    pose proof (n_cards_nonneg _ Hn1).
    pose proof (assemble_loop_totals
                  (last_main_card (l1 ++ l2)%list) l1 Hn1
                  (mkPile ∅) (mkPile ∅) 0) as (_ & Hm & Hs).
    cbv zeta in *. rewrite pile_total_empty in Hm, Hs.
    unfold last_main_card in *. subst last. lia. }
  split_and!.
  - unfold assemble, split_spec, last_main_card.
    by rewrite assemble_loop_split.
  - exact Hprefix.
  - intros H65.
    destruct (Hprefix box_cards [] (eq_sym (app_nil_r _))) as [Hm Hs].
    rewrite assemble_eq. simpl. subst last. lia.
Qed.

(** ** The whole pipeline *)

Section ResolvedBoxes.
Variable self : MagicRecognition.
Variable P : BoxText.t → Prop.
Hypothesis P_resolved :
  ∀ box text card,
    search self text = Ok (Some card) → P (BoxText.mk box card 1).

Lemma box_text_to_card_Forall box_cards bt r :
  Forall P box_cards → box_text_to_card self box_cards bt = Ok r →
  Forall P r.
Proof.
  intros HP. unfold box_text_to_card.
  destruct (lookup (sym_keywords self) _ _) as [| s sug].
  - destruct (search self (preprocess (BoxText.text bt)))
      as [[card |] | e] eqn:Hs; simpl; try discriminate.
    + intros [= <-]. unfold add. apply Forall_app. split; [done |].
      apply Forall_singleton. by eapply P_resolved.
    + by intros [= <-].
  - destruct (py_div _ _); simpl; [| discriminate]. by intros [= <-].
Qed.

Lemma box_texts_to_cards_Forall box_texts r :
  box_texts_to_cards self box_texts = Ok r → Forall P r.
Proof.
  unfold box_texts_to_cards.
  apply (foldM_invariant (Forall P)); [| by apply Forall_nil].
  intros x bt y. apply box_text_to_card_Forall.
Qed.
End ResolvedBoxes.

(** the resolved list the assembler receives has counts from 0 to 9 *)
Lemma resolved_counted (self : MagicRecognition)
    (box_texts all_texts box_cards r : BoxTextList) :
  box_texts_to_cards self box_texts = Ok box_cards →
  assign_stacked all_texts box_cards = Ok r →
  Forall counted r.
Proof.
  intros Hcards Hassign.
  apply (assign_stacked_Forall counted) in Hassign; [done | |].
  - unfold counted. simpl. lia.
  - apply (box_texts_to_cards_Forall self counted) in Hcards; [done |].
    unfold counted. simpl. lia.
Qed.

(** the deck of a run holds as many copies as its resolved boxes count *)
Lemma pipeline_conservation sort (self : MagicRecognition)
    (box_texts : BoxTextList) (deck : Deck) :
  box_texts_to_stacked_cards sort self box_texts = Ok deck →
  ∃ box_cards,
    Forall counted box_cards ∧ deck = assemble box_cards ∧
    pile_total (maindeck deck) + pile_total (sideboard deck)
      = n_cards box_cards.
Proof.
  unfold box_texts_to_stacked_cards.
  destruct (box_texts_to_cards self (sort box_texts)) as [bc | e] eqn:Hbc;
    simpl; [| discriminate].
  destruct (assign_stacked (sort box_texts) bc) as [bc' | e] eqn:Hbc';
    simpl; [| discriminate].
  intros [= <-]. exists bc'.
  pose proof (resolved_counted _ _ _ _ _ Hbc Hbc') as Hn.
  split_and!; [done | done |].
  destruct (assemble_totals bc' Hn) as [Hm Hs]. cbv zeta in Hm, Hs. lia.
Qed.

(** C9. Every name the resolver returns is an entry of the card index, so
    is the text of every resolved box, and so is every key of the two piles
    of the deck of a run. *)
Theorem resolved_names_in_index (self : MagicRecognition) :
  lookup_sound (sym_all_cards self) →
  (∀ text card, search self text = Ok (Some card) → card ∈ all_cards self) ∧
  (∀ box_texts box_cards,
     box_texts_to_cards self box_texts = Ok box_cards →
     Forall (λ b, BoxText.text b ∈ all_cards self) box_cards) ∧
  (∀ sort box_texts deck,
     box_texts_to_stacked_cards sort self box_texts = Ok deck →
     ∀ k, k ∈ dom (cards (maindeck deck)) ∨ k ∈ dom (cards (sideboard deck)) →
          k ∈ all_cards self).
Proof.
  intros Hsound.
  assert (∀ text card, search self text = Ok (Some card) →
                       card ∈ all_cards self) as Hsearch.
  { intros text card. by apply search_in_index. }
  assert (∀ box_texts box_cards,
     box_texts_to_cards self box_texts = Ok box_cards →
     Forall (λ b, BoxText.text b ∈ all_cards self) box_cards) as Hcards.
  { intros box_texts box_cards.
    apply (box_texts_to_cards_Forall self
             (λ b, BoxText.text b ∈ all_cards self)).
    intros box text card. simpl. apply Hsearch. }
  split_and!; [exact Hsearch | exact Hcards |].
  intros sort box_texts deck. unfold box_texts_to_stacked_cards.
  destruct (box_texts_to_cards self (sort box_texts)) as [bc | e] eqn:Hbc;
    simpl; [| discriminate].
  destruct (assign_stacked (sort box_texts) bc) as [bc' | e] eqn:Hbc';
    simpl; [| discriminate].
  intros [= <-] k Hk.
  apply Hcards in Hbc.
  apply (assign_stacked_Forall (λ b, BoxText.text b ∈ all_cards self))
    in Hbc'; [| done | done].
  rewrite assemble_eq in Hk. simpl in Hk.
  apply assemble_loop_keys in Hk as [[Hk | Hk] | (b & Hb & <-)].
  - simpl in Hk. set_solver.
  - simpl in Hk. set_solver.
  - rewrite Forall_forall in Hbc'. by apply Hbc'.
Qed.

(** ** Runs on the small engines *)

Ltac listed := apply (bool_decide_eq_true_1 _); vm_compute; reflexivity.
Ltac conjs := repeat (split; [assumption |]); assumption.
Ltac unlisted := apply (bool_decide_eq_false_1 _); vm_compute; reflexivity.

(** Scenario A of the spec, with a land for the card. *)
Example scenario_labelled_card :
  box_texts_to_stacked_cards sort_boxes islands
    [BoxText.mk (0, 5) "x4" 1; BoxText.mk (0, 0) "Island" 1]
  = Ok (mkDeck (mkPile {["Island" := 4]}) (mkPile ∅)).
Proof. vm_compute. reflexivity. Qed.

Lemma search_length_guard_witness :
  (len "Ow" < 3 ∨ 30 < len "Ow") ∧ search vintage "Ow" = Ok None.
Proof.
  assert (len "Ow" < 3 ∨ 30 < len "Ow") as H by (left; reflexivity).
  split; [exact H | exact (search_length_guard vintage "Ow" H)].
Defined.

(** C1 as stated fails: a card name of 31 characters is in the index and
    does not resolve to itself. *)
Lemma search_exact_long_name :
  ¬ ("Asmoranomardicadaistinaculdacar" ∈ all_cards vintage →
     search vintage "Asmoranomardicadaistinaculdacar"
     = Ok (Some "Asmoranomardicadaistinaculdacar")).
Proof.
  intros H. assert ("Asmoranomardicadaistinaculdacar" ∈ all_cards vintage)
    as Hin by listed.
  specialize (H Hin). vm_compute in H. discriminate H.
Qed.

Lemma search_exact_witness :
  "Fear" ∈ all_cards vintage ∧ 3 ≤ len "Fear" ≤ 30 ∧
  search vintage "Fear" = Ok (Some "Fear").
Proof.
  assert ("Fear" ∈ all_cards vintage) as Hin by listed.
  assert (3 ≤ len "Fear" ≤ 30) as Hlen by (unfold len; simpl; lia).
  pose proof (search_exact vintage "Fear" Hin Hlen) as Hs.
  conjs.
Defined.

(** C2 as stated fails: "Island" and "Island Sanctuary" agree on their
    first four characters, the first listed is returned, and its prefix
    distance is not below that of the other. *)
Lemma search_truncated_tie :
  find ".." "Isla.." = 4 ∧ ("Isla.." ∉ all_cards islands) ∧
  ¬ (∀ c, search islands "Isla.." = Ok (Some c) →
          ∀ c', c' ∈ all_cards islands → c' ≠ c →
                prefix_dist "Isla.." 4 c < prefix_dist "Isla.." 4 c').
Proof.
  split_and!; [reflexivity | unlisted |].
  intros H.
  assert (search islands "Isla.." = Ok (Some "Island")) as Hs
    by (vm_compute; reflexivity).
  assert ("Island Sanctuary" ∈ all_cards islands) as Hin by listed.
  specialize (H "Island" Hs "Island Sanctuary" Hin ltac:(discriminate)).
  vm_compute in H. discriminate H.
Qed.

Lemma search_truncated_witness :
  compare_contract (edit_dist islands) ∧
  3 ≤ len "Isla.." ≤ 30 ∧ ("Isla.." ∉ all_cards islands) ∧
  find ".." "Isla.." = 4 ∧ 4 ≠ -1 ∧
  search islands "Isla.." = Ok (Some "Island") ∧
  prefix_dist "Isla.." 4 "Island"
    < Qfloor (max_ratio_diff islands * inject_Z 4) ∧
  (∀ lk, search (with_lookup islands lk) "Isla.." = search islands "Isla..").
Proof.
  assert (compare_contract (edit_dist islands)) as H1
    by exact levenshtein_compare_contract.
  assert (3 ≤ len "Isla.." ≤ 30) as H2 by (unfold len; simpl; lia).
  assert ("Isla.." ∉ all_cards islands) as H3 by unlisted.
  assert (find ".." "Isla.." = 4) as H4 by reflexivity.
  assert (4 ≠ -1) as H5 by lia.
  assert (search islands "Isla.." = Ok (Some "Island")) as Hs
    by (vm_compute; reflexivity).
  destruct (search_truncated islands "Isla.." 4 H1 H2 H3 H4 H5)
    as (_ & Hbest & _ & Hlk).
  destruct (Hbest "Island" Hs) as [Hlt _].
  conjs.
Defined.

Lemma search_fuzzy_length_witness :
  lookup_sound (sym_all_cards swamps) ∧
  ("Swamq" ∉ all_cards swamps) ∧ find ".." "Swamq" = -1 ∧
  search swamps "Swamq" = Ok (Some "Swamp") ∧
  len "Swamp" < len (rstrip (remove_dots "Swamq")) + 7 ∧
  len "Swamp" < len "Swamq" + 7.
Proof.
  assert (lookup_sound (sym_all_cards swamps)) as H1
    by exact (closest_lookup_sound _).
  assert ("Swamq" ∉ all_cards swamps) as H2 by unlisted.
  assert (find ".." "Swamq" = -1) as H3 by reflexivity.
  assert (search swamps "Swamq" = Ok (Some "Swamp")) as H4
    by (vm_compute; reflexivity).
  destruct (search_fuzzy_length swamps "Swamq" "Swamp" H1 H2 H3 H4)
    as [Ha Hb].
  conjs.
Defined.

(** C4 as stated fails: "Fear12" normalizes to the keyword "Fear", yet the
    filter reads the stored text, finds no keyword within one edit of it,
    and the box resolves to the card "Fear". *)
Lemma keyword_filter_reads_stored_text :
  let bt := BoxText.mk (0, 0) "Fear12" 1 in
  let normalized := preprocess (BoxText.text bt) in
  "Fear" ∈ words (sym_keywords vintage) ∧
  lev normalized "Fear"
    ≤ Z.min 3 (Qfloor (max_ratio_diff_keyword vintage
                       * inject_Z (len normalized))) ∧
  box_texts_to_cards vintage [bt] = Ok [BoxText.mk (0, 0) "Fear" 1] ∧
  box_texts_to_cards vintage [bt] ≠ box_texts_to_cards vintage [].
Proof.
  cbv zeta. split_and!.
  - listed.
  - vm_compute. discriminate.
  - vm_compute. reflexivity.
  - vm_compute. discriminate.
Qed.

Lemma keyword_precedence_witness :
  let bt := BoxText.mk (0, 0) "Flyin" 1 in
  lookup_complete (sym_keywords swamps) ∧
  "Flying" ∈ words (sym_keywords swamps) ∧
  BoxText.text bt ≠ "" ∧
  lev (BoxText.text bt) "Flying"
    ≤ Z.min 3 (Qfloor (max_ratio_diff_keyword swamps
                       * inject_Z (len (BoxText.text bt)))) ∧
  (∀ box_cards, box_text_to_card swamps box_cards bt = Ok box_cards) ∧
  (∀ l1 l2,
     box_texts_to_cards swamps (l1 ++ bt :: l2)%list =
     box_texts_to_cards swamps (l1 ++ l2)%list).
Proof.
  cbv zeta.
  assert (lookup_complete (sym_keywords swamps)) as H1
    by exact (closest_lookup_complete damerau_osa _ damerau_osa_le_levenshtein).
  assert ("Flying" ∈ words (sym_keywords swamps)) as H2 by listed.
  assert (BoxText.text (BoxText.mk (0, 0) "Flyin" 1) ≠ "") as H3
    by discriminate.
  assert (lev (BoxText.text (BoxText.mk (0, 0) "Flyin" 1)) "Flying"
          ≤ Z.min 3 (Qfloor (max_ratio_diff_keyword swamps
               * inject_Z (len (BoxText.text (BoxText.mk (0, 0) "Flyin" 1))))))
    as H4 by (vm_compute; discriminate).
  destruct (keyword_precedence swamps (BoxText.mk (0, 0) "Flyin" 1) "Flying"
              H1 H2 H3 H4) as [Ha Hb].
  conjs.
Defined.

Lemma deck_split_conservation_witness :
  let box_cards :=
    [BoxText.mk (0, 0) "Island" 4; BoxText.mk (0, 1) "Swamp" 2] in
  Forall counted box_cards ∧
  pile_total (maindeck (assemble box_cards))
    + pile_total (sideboard (assemble box_cards)) = n_cards box_cards ∧
  (n_cards box_cards ≤ 60 →
   pile_total (maindeck (assemble box_cards)) = n_cards box_cards ∧
   sideboard (assemble box_cards) = mkPile ∅).
Proof.
  cbv zeta.
  assert (Forall counted
            [BoxText.mk (0, 0) "Island" 4; BoxText.mk (0, 1) "Swamp" 2]) as H
    by (repeat constructor; unfold counted; simpl; lia).
  split; [exact H |].
  exact (deck_split_conservation _ H).
Defined.

Lemma deck_split_rule_witness :
  let box_cards :=
    [BoxText.mk (0, 0) "Island" 40; BoxText.mk (0, 1) "Swamp" 25] in
  Forall counted box_cards ∧
  assemble box_cards = split_spec box_cards ∧
  (n_cards box_cards = 65 →
   pile_total (maindeck (assemble box_cards)) = 60 ∧
   pile_total (sideboard (assemble box_cards)) = 5).
Proof.
  cbv zeta.
  assert (Forall counted
            [BoxText.mk (0, 0) "Island" 40; BoxText.mk (0, 1) "Swamp" 25]) as H
    by (repeat constructor; unfold counted; simpl; lia).
  destruct (deck_split_rule _ H) as (Ha & _ & Hb).
  conjs.
Defined.

Lemma resolved_names_in_index_witness :
  lookup_sound (sym_all_cards swamps) ∧
  (∀ text card, search swamps text = Ok (Some card) →
                card ∈ all_cards swamps).
Proof.
  assert (lookup_sound (sym_all_cards swamps)) as H
    by exact (closest_lookup_sound _).
  split; [exact H |].
  exact (proj1 (resolved_names_in_index swamps H)).
Defined.

(** C10 as stated fails: with the label of an "x" and a superscript two
    before the label "x4" and no resolved card, [int] raises [ValueError]
    on the first label and index 0 of the empty list is never read. *)
Lemma assign_stacked_empty_value_error :
  let box_texts :=
    [BoxText.mk (0, 0) (String "x" (String "178" "")) 1;
     BoxText.mk (0, 5) "x4" 1] in
  Exists (λ bt, count_label (BoxText.text bt) = true) box_texts ∧
  assign_stacked box_texts [] = Raise ValueError ∧
  assign_stacked box_texts [] ≠ Raise IndexError.
Proof.
  cbv zeta. split_and!.
  - right. left. reflexivity.
  - reflexivity.
  - discriminate.
Qed.

Lemma assign_stacked_empty_fails_witness :
  let box_texts :=
    [BoxText.mk (0, 0) "Island" 1; BoxText.mk (0, 5) "x4" 1] in
  Exists (λ bt, count_label (BoxText.text bt) = true) box_texts ∧
  (assign_stacked box_texts [] = Raise IndexError ∨
   assign_stacked box_texts [] = Raise ValueError) ∧
  assign_stacked box_texts [] = Raise IndexError.
Proof.
  cbv zeta.
  assert (Exists (λ bt, count_label (BoxText.text bt) = true)
            [BoxText.mk (0, 0) "Island" 1; BoxText.mk (0, 5) "x4" 1]) as H
    by (right; left; reflexivity).
  destruct (assign_stacked_empty_fails _ H) as [Ha Hb].
  split_and!; [exact H | exact Ha |].
  apply Hb. repeat constructor; simpl; congruence.
Defined.


(** * The rest of the file *)

(** ** The card file: front faces *)

Lemma prefix_slice (sub s : string) (k : nat) :
  String.prefix sub (slice_to k s) = true → String.prefix sub s = true.
Proof.
  revert s k. induction sub as [| a sub IH]; intros s k.
  - by destruct s.
  - destruct s as [| b s]; destruct k as [| k]; simpl; try discriminate.
    destruct (ascii_dec a b); [apply IH | discriminate].
Qed.

Lemma find_from_ge (sub s : string) (pos : nat) :
  find_from sub s pos = -1 ∨ Z.of_nat pos ≤ find_from sub s pos.
Proof.
  revert pos. induction s as [| c s IH]; intros pos; cbn [find_from].
  - destruct (String.prefix sub ""); [right; lia | by left].
  - destruct (String.prefix sub (String c s)); [right; lia |].
    destruct (IH (S pos)) as [-> | H]; [by left | right; lia].
Qed.

(** the text before the first occurrence holds no occurrence *)
Lemma find_from_slice (sub s : string) :
  String.prefix sub "" = false →
  ∀ (pos pos' k : nat),
    find_from sub s pos = Z.of_nat (pos + k) →
    find_from sub (slice_to k s) pos' = -1.
Proof.
  intros Hsub. induction s as [| c s IH]; intros pos pos' k;
    cbn [find_from slice_to].
  - rewrite Hsub. lia.
  - destruct (String.prefix sub (String c s)) eqn:Hp.
    + intros Hk. assert (k = O) as -> by lia. cbn [find_from slice_to].
      by rewrite Hsub.
    + intros Hk.
      destruct k as [| k].
      { destruct (find_from_ge sub s (S pos)); lia. }
      cbn [find_from slice_to].
      destruct (String.prefix sub (String c (slice_to k s))) eqn:Hp'.
      * apply (prefix_slice sub (String c s) (S k)) in Hp'. congruence.
      * apply (IH (S pos)). rewrite Hk. lia.
Qed.

Lemma slice_to_prefix (k : nat) (s : string) :
  ∃ rest, s = slice_to k s ++ rest.
Proof.
  revert s. induction k as [| k IH]; intros s.
  - by exists s.
  - destruct s as [| c s]; [by exists "" |].
    destruct (IH s) as [rest Hrest]. exists rest.
    change (String c s = String c (slice_to k s ++ rest)). by f_equal.
Qed.

(** X1. The front face of a name holds no [" //"], starts the name, is
    the name itself when the name holds none, and is its own front face. *)
Theorem front_face_spec (card : string) :
  find " //" (front_face card) = -1 ∧
  (∃ rest, card = front_face card ++ rest) ∧
  (find " //" card = -1 → front_face card = card) ∧
  front_face (front_face card) = front_face card.
Proof.
  assert (find " //" (front_face card) = -1) as Hnone.
  { unfold front_face.
    destruct (Z.eqb_spec (find " //" card) (-1)) as [Heq | Hne]; simpl;
      [done |].
    unfold find in *.
    destruct (find_from_ge " //" card 0) as [H | H]; [contradiction |].
    apply (find_from_slice " //" card eq_refl 0 0).
    simpl. lia. }
  split_and!.
  - exact Hnone.
  - unfold front_face. destruct (negb _); [apply slice_to_prefix |].
    exists "". clear. induction card as [| c s IH]; [done |].
    change (String c s = String c (s ++ "")). by f_equal.
  - intros H. unfold front_face. by rewrite H.
  - unfold front_face at 1. by rewrite Hnone.
Qed.

(** ** The keyword file *)

Lemma concat_lists_acc (LL : list (list string)) (acc : list string) :
  fold_left (λ res L, (res ++ L)%list) LL acc = (acc ++ concat LL)%list.
Proof.
  revert acc. induction LL as [| L LL IH]; intros acc; simpl.
  - by rewrite app_nil_r.
  - by rewrite IH, app_assoc.
Qed.

(** X2. [concat_lists] puts the lists one after the other, and a word is
    an entry of the keyword dictionary exactly when a list of the keyword
    file holds it or it is one of the four words added by hand. *)
Theorem keyword_entries_spec (data : list (list string)) :
  concat_lists data = concat data ∧
  ∀ k, k ∈ keyword_entries data ↔
       (∃ L, L ∈ data ∧ k ∈ L) ∨
       k ∈ ["Display"; "Land"; "Search"; "Profile"].
Proof.
  assert (concat_lists data = concat data) as Hc.
  { unfold concat_lists. by rewrite concat_lists_acc. }
  split; [exact Hc |].
  intros k. unfold keyword_entries. rewrite Hc, elem_of_app.
  assert (k ∈ concat data ↔ ∃ L, L ∈ data ∧ k ∈ L) as ->; [| done].
  rewrite list_elem_of_In, in_concat.
  split; intros (L & HL & Hk); exists L.
  - by rewrite !list_elem_of_In.
  - by rewrite <- !list_elem_of_In.
Qed.

(** ** The preprocessor *)

Lemma all_chars_filter (keep : ascii → bool) (s : string) :
  all_chars keep (str_filter keep s) = true.
Proof.
  induction s as [| c s IH]; simpl; [done |].
  destruct (keep c) eqn:Hc; simpl; [by rewrite Hc |done].
Qed.

Lemma all_chars_rstrip (keep : ascii → bool) (s : string) :
  all_chars keep s = true → all_chars keep (rstrip s) = true.
Proof.
  induction s as [| c s IH]; simpl; [done |].
  intros [Hc Hs]%andb_true_iff. specialize (IH Hs).
  destruct (rstrip s) as [| c' r].
  - destruct (Ascii.eqb c " "); simpl; [done | by rewrite Hc].
  - simpl in *. by rewrite Hc.
Qed.

Lemma str_filter_all (keep : ascii → bool) (s : string) :
  all_chars keep s = true → str_filter keep s = s.
Proof.
  induction s as [| c s IH]; simpl; [done |].
  intros [-> Hs]%andb_true_iff. by rewrite IH.
Qed.

Lemma rstrip_idem (s : string) : rstrip (rstrip s) = rstrip s.
Proof.
  induction s as [| c s IH]; simpl; [done |].
  destruct (rstrip s) as [| c' r] eqn:Hr.
  - destruct (Ascii.eqb c " ") eqn:Hc; simpl; [done | by rewrite Hc].
  - change (rstrip (String c (String c' r)))
      with (match rstrip (String c' r) with
            | "" => if Ascii.eqb c " " then "" else String c ""
            | r' => String c r'
            end).
    by rewrite IH.
Qed.

Lemma rstrip_app_space (s : string) : rstrip (s ++ " ") = rstrip s.
Proof.
  induction s as [| c s IH]; [reflexivity |].
  change (String c s ++ " ") with (String c (s ++ " ")).
  simpl. by rewrite IH.
Qed.

Lemma app_length_space (s : string) :
  String.length (s ++ " ") = S (String.length s).
Proof.
  induction s as [| c s IH]; [reflexivity |].
  change (String c s ++ " ") with (String c (s ++ " ")).
  simpl. by rewrite IH.
Qed.

Lemma rstrip_no_trailing_space (s t : string) : rstrip s ≠ t ++ " ".
Proof.
  intros H.
  pose proof (rstrip_idem s) as Hi. rewrite H, rstrip_app_space in Hi.
  pose proof (rstrip_length t) as Hl. rewrite Hi, app_length_space in Hl.
  lia.
Qed.

Lemma preprocess_idem (text : string) :
  preprocess (preprocess text) = preprocess text.
Proof.
  unfold preprocess.
  rewrite (str_filter_all name_char (rstrip (str_filter name_char text))).
  - apply rstrip_idem.
  - apply all_chars_rstrip, all_chars_filter.
Qed.

(** X3. Normalizing twice is normalizing once; the result holds only
    letters, apostrophes, commas, periods and spaces, does not end in a
    space and is no longer than the text. *)
Theorem preprocess_spec (text : string) :
  preprocess (preprocess text) = preprocess text ∧
  all_chars name_char (preprocess text) = true ∧
  (∀ t, preprocess text ≠ t ++ " ") ∧
  len (preprocess text) ≤ len text.
Proof.
  split_and!.
  - apply preprocess_idem.
  - apply all_chars_rstrip, all_chars_filter.
  - intros t. apply rstrip_no_trailing_space.
  - unfold preprocess, len.
    pose proof (rstrip_length (str_filter name_char text)).
    pose proof (str_filter_length name_char text). lia.
Qed.

(** X4. [preprocess_texts] keeps the number of boxes, their positions and
    their counts, leaves every text normalized, and changes nothing when
    run again. *)
Theorem preprocess_texts_spec (box_texts : BoxTextList) :
  length (preprocess_texts box_texts) = length box_texts ∧
  map BoxText.box (preprocess_texts box_texts) = map BoxText.box box_texts ∧
  map BoxText.n (preprocess_texts box_texts) = map BoxText.n box_texts ∧
  map BoxText.text (preprocess_texts box_texts)
    = map preprocess (map BoxText.text box_texts) ∧
  Forall (λ b, preprocess (BoxText.text b) = BoxText.text b)
    (preprocess_texts box_texts) ∧
  preprocess_texts (preprocess_texts box_texts) = preprocess_texts box_texts.
Proof.
  unfold preprocess_texts. split_and!.
  - apply length_map.
  - rewrite map_map. by apply map_ext.
  - rewrite map_map. by apply map_ext.
  - rewrite !map_map. by apply map_ext.
  - apply Forall_forall. intros b Hb.
    apply list_elem_of_In, in_map_iff in Hb as (b0 & <- & _). simpl.
    apply preprocess_idem.
  - rewrite map_map. apply map_ext. intros b. simpl.
    by rewrite preprocess_idem.
Qed.

(** ** More on the edit distances and the lookups *)

Lemma levenshtein_refl (s : string) : levenshtein s s = O.
Proof.
  induction s as [| a s IH]; [reflexivity |].
  rewrite levenshtein_cons_cons, Ascii.eqb_refl, IH. lia.
Qed.

Lemma levenshtein_zero (s t : string) : levenshtein s t = O → s = t.
Proof.
  revert t. induction s as [| a s IH]; intros t.
  - destruct t; simpl; [done | lia].
  - destruct t as [| b t]; [simpl; lia |].
    rewrite levenshtein_cons_cons.
    destruct (Ascii.eqb_spec a b) as [-> | Hne]; [| lia].
    intros H. f_equal. apply IH. lia.
Qed.

Lemma lev_zero_iff (s t : string) : lev s t = 0 ↔ s = t.
Proof.
  unfold lev. split.
  - intros H. apply levenshtein_zero. lia.
  - intros ->. by rewrite levenshtein_refl.
Qed.

Lemma damerau_osa_length_aux (n : nat) :
  ∀ s, (String.length s ≤ n)%nat →
  ∀ t, (String.length t ≤ String.length s + damerau_osa s t ∧
        String.length s ≤ String.length t + damerau_osa s t)%nat.
Proof.
  induction n as [| n IHn]; intros s Hs t.
  - destruct s; simpl in *; lia.
  - destruct s as [| a s]; [simpl; lia |].
    simpl in Hs.
    induction t as [| b t IHt]; [simpl; lia |].
    rewrite damerau_osa_cons_cons. cbv zeta.
    pose proof (IHn s ltac:(lia) (String b t)) as H1.
    pose proof (IHn s ltac:(lia) t) as H2.
    remember (damerau_osa s (String b t)) as x1 eqn:E1.
    remember (damerau_osa (String a s) t) as x2 eqn:E2.
    remember (damerau_osa s t) as x3 eqn:E3.
    clear E1 E2 E3.
    destruct s as [| a2 s'];
      [simpl String.length in *; destruct (Ascii.eqb a b); lia |].
    destruct t as [| b2 t'];
      [simpl String.length in *; destruct (Ascii.eqb a b); lia |].
    simpl String.length in *.
    pose proof (IHn s' ltac:(lia) t') as H3.
    destruct (Ascii.eqb a b2 && Ascii.eqb a2 b), (Ascii.eqb a b); lia.
Qed.

Lemma damerau_osa_length (s t : string) :
  (String.length t ≤ String.length s + damerau_osa s t)%nat.
Proof. apply (damerau_osa_length_aux (String.length s) s (le_n _) t). Qed.

Lemma closest_lookup_bounded d (ws : list string) :
  (∀ s t, (String.length t ≤ String.length s + d s t)%nat) →
  lookup_bounded (closest_symspell d ws).
Proof.
  intros Hd text m s Hs. simpl in Hs.
  apply closest_lookup_subset, suggestions_elem in Hs.
  destruct Hs as [Hm (w & Hw & ->)]. simpl in *. split; [done |].
  unfold len. specialize (Hd text w). lia.
Qed.

Lemma lookup_sound_bounded (sym : SymSpell) :
  lookup_sound sym → lookup_bounded sym.
Proof.
  intros Hsound text m s Hs. destruct (Hsound _ _ _ Hs) as (Hw & Hd & Hm).
  split; [done |]. pose proof (lev_length text (term s)). lia.
Qed.

(** with no empty word in the dictionary the empty phrase has no
    suggestion within 0 edits *)
Lemma lookup_empty_phrase (sym : SymSpell) (m : Z) :
  lookup_bounded sym → "" ∉ words sym → m ≤ 0 → lookup sym "" m = [].
Proof.
  intros Hb Hne Hm.
  destruct (lookup sym "" m) as [| s sug] eqn:Hl; [done |].
  destruct (Hb "" m s) as [Hw Hlen]; [rewrite Hl; by left |].
  change (len "") with 0 in Hlen.
  assert (term s = "") as Heq by (apply len_zero; pose proof (len_nonneg (term s)); lia).
  by rewrite Heq in Hw.
Qed.

(** ** The resolver never raises *)

Lemma foldM_total {A B : Type} (f : A → B → result A) :
  (∀ a b, ∃ a', f a b = Ok a') → ∀ l a, ∃ a', foldM f a l = Ok a'.
Proof.
  intros Hf. induction l as [| b l IH]; intros a; simpl; [eauto |].
  destruct (Hf a b) as [a' ->]. simpl. apply IH.
Qed.

Lemma search_total (self : MagicRecognition) (text : string) :
  compare_contract (edit_dist self) →
  lookup_bounded (sym_all_cards self) →
  "" ∉ all_cards self →
  ∃ r, search self text = Ok r.
Proof.
  intros Hcmp Hb Hne. unfold search.
  destruct (len text <? 3); [eauto |].
  destruct (30 <? len text); [eauto |].
  destruct (decide (text ∈ all_cards self)); [eauto |].
  set (i := find ".." text).
  destruct (Z.eqb_spec i (-1)) as [Hi | Hi]; simpl.
  - set (stripped := rstrip (remove_dots text)).
    destruct (Z.eq_dec (len stripped) 0) as [H0 | H0].
    + apply len_zero in H0. rewrite H0. change (len "") with 0.
      rewrite budget_zero.
      rewrite (lookup_empty_phrase (sym_all_cards self)) by (done || lia).
      eauto.
    + destruct (lookup (sym_all_cards self) stripped _) as [| s sug];
        [eauto |].
      unfold py_div. destruct (Z.eqb_spec (len stripped) 0); [done |]. simpl.
      destruct (_ <? _); eauto.
  - unfold prefix_search.
    set (b := budget (max_ratio_diff self) i).
    destruct (prefix_loop (edit_dist self) Hcmp text i (all_cards self)
                (None, b))
      as [[-> _] | (l1 & c & l2 & _ & -> & Hlt & _)]; simpl in *; [eauto |].
    pose proof (lev_nonneg (slice_to (Z.to_nat i) text)
                  (slice_to (Z.to_nat i) c)) as Hnn.
    fold (prefix_dist text i c) in Hnn.
    unfold py_div. destruct (Z.eqb_spec i 0) as [H0 | H0]; simpl; [| eauto].
    exfalso. unfold b in Hlt. rewrite H0 in Hlt, Hnn.
    rewrite budget_zero in Hlt. lia.
Qed.

Lemma box_texts_to_cards_total (self : MagicRecognition)
    (box_texts : BoxTextList) :
  compare_contract (edit_dist self) →
  lookup_bounded (sym_all_cards self) →
  lookup_bounded (sym_keywords self) →
  "" ∉ all_cards self → "" ∉ words (sym_keywords self) →
  ∃ r, box_texts_to_cards self box_texts = Ok r.
Proof.
  intros Hcmp Hcards Hkw Hne Hnek.
  unfold box_texts_to_cards. apply foldM_total.
  intros acc bt. unfold box_text_to_card.
  destruct (Z.eq_dec (len (BoxText.text bt)) 0) as [H0 | H0].
  - apply len_zero in H0. rewrite H0. change (len "") with 0.
    rewrite budget_zero.
    rewrite (lookup_empty_phrase (sym_keywords self)) by (done || lia).
    destruct (search_total self (preprocess "") Hcmp Hcards Hne)
      as [[c |] ->]; simpl; eauto.
  - destruct (lookup (sym_keywords self) _ _) as [| s sug].
    + destruct (search_total self (preprocess (BoxText.text bt))
                  Hcmp Hcards Hne) as [[c |] ->]; simpl; eauto.
    + unfold py_div.
      destruct (Z.eqb_spec (len (BoxText.text bt)) 0); [done |].
      simpl. eauto.
Qed.

(** X5. When [compare] and the two lookups keep their contracts and
    neither dictionary holds the empty word, the resolver and the loop
    over the boxes never raise, whatever the texts. *)
Theorem resolution_never_raises (self : MagicRecognition) :
  compare_contract (edit_dist self) →
  lookup_bounded (sym_all_cards self) →
  lookup_bounded (sym_keywords self) →
  "" ∉ all_cards self → "" ∉ words (sym_keywords self) →
  (∀ text, ∃ r, search self text = Ok r) ∧
  (∀ box_texts, ∃ r, box_texts_to_cards self box_texts = Ok r).
Proof.
  intros Hcmp Hcards Hkw Hne Hnek. split.
  - intros text. by apply search_total.
  - intros box_texts. by apply box_texts_to_cards_total.
Qed.

(** ** More on the three paths of the resolver *)

(** X7. On the truncated path a budget [int(name_ratio * i)] of 0 or less
    leaves no match: with the ratio 0.3, fewer than four characters before
    the marker never resolve. *)
Theorem search_truncated_no_budget (self : MagicRecognition) (text : string)
    (i : Z) :
  compare_contract (edit_dist self) →
  text ∉ all_cards self → find ".." text = i → i ≠ -1 →
  budget (max_ratio_diff self) i ≤ 0 →
  search self text = Ok None.
Proof.
  intros Hcmp Hnot Hfind Hi Hb. unfold search.
  destruct (len text <? 3); [reflexivity |].
  destruct (30 <? len text); [reflexivity |].
  destruct (decide (text ∈ all_cards self)); [contradiction |].
  rewrite Hfind. destruct (Z.eqb_spec i (-1)); [contradiction |]. simpl.
  unfold prefix_search.
  destruct (prefix_loop (edit_dist self) Hcmp text i (all_cards self)
              (None, budget (max_ratio_diff self) i))
    as [[-> _] | (l1 & c & l2 & _ & _ & Hlt & _)]; simpl in *; [reflexivity |].
  pose proof (lev_nonneg (slice_to (Z.to_nat i) text)
                (slice_to (Z.to_nat i) c)) as Hnn.
  fold (prefix_dist text i c) in Hnn. lia.
Qed.

(** with the ratio 0.3 the budget is 0 up to three characters *)
Lemma default_budget_below_four (i : Z) :
  0 ≤ i ≤ 3 → budget (3 # 10) i = 0.
Proof.
  intros Hi.
  assert (i = 0 ∨ i = 1 ∨ i = 2 ∨ i = 3) as [-> | [-> | [-> | ->]]] by lia;
    reflexivity.
Qed.

(** X8. On the truncated path with a positive budget, when some entry of
    the index has the first [i] characters of the text, the result is the
    first entry that has them. *)
Theorem search_truncated_completes (self : MagicRecognition) (text : string)
    (i : Z) (c0 : string) :
  compare_contract (edit_dist self) →
  3 ≤ len text ≤ 30 → text ∉ all_cards self →
  find ".." text = i → i ≠ -1 →
  0 < budget (max_ratio_diff self) i →
  c0 ∈ all_cards self →
  slice_to (Z.to_nat i) c0 = slice_to (Z.to_nat i) text →
  ∃ c l1 l2,
    search self text = Ok (Some c) ∧
    all_cards self = (l1 ++ c :: l2)%list ∧
    slice_to (Z.to_nat i) c = slice_to (Z.to_nat i) text ∧
    ∀ c', c' ∈ l1 → slice_to (Z.to_nat i) c' ≠ slice_to (Z.to_nat i) text.
Proof.
  intros Hcmp Hlen Hnot Hfind Hi Hb Hc0 Hpre.
  rewrite (search_truncated_eq self text i) by done.
  unfold prefix_search.
  assert (prefix_dist text i c0 = 0) as Hd0.
  { unfold prefix_dist. apply lev_zero_iff. by symmetry. }
  destruct (prefix_loop (edit_dist self) Hcmp text i (all_cards self)
              (None, budget (max_ratio_diff self) i))
    as [[_ Hall] | (l1 & c & l2 & Hl & -> & Hlt & H1 & H2)]; simpl in *.
  { specialize (Hall c0 Hc0). lia. }
  pose proof (lev_nonneg (slice_to (Z.to_nat i) text)
                (slice_to (Z.to_nat i) c)) as Hnn.
  fold (prefix_dist text i c) in Hnn.
  assert (prefix_dist text i c = 0) as Hd.
  { rewrite Hl in Hc0.
    apply elem_of_app in Hc0 as [Hc0 | [-> | Hc0]%elem_of_cons].
    - specialize (H1 c0 Hc0). lia.
    - done.
    - specialize (H2 c0 Hc0). lia. }
  assert (i ≠ 0) as Hi0.
  { intros ->. rewrite budget_zero in Hb. lia. }
  exists c, l1, l2. unfold py_div.
  destruct (Z.eqb_spec i 0); [contradiction |]. simpl.
  split_and!; [reflexivity | done | |].
  - unfold prefix_dist in Hd. apply lev_zero_iff in Hd. by symmetry.
  - intros c' Hc' Heq. specialize (H1 c' Hc').
    assert (prefix_dist text i c' = 0) as Hz.
    { unfold prefix_dist. apply lev_zero_iff. by symmetry. }
    lia.
Qed.

(** X9. A name the resolver returns, when it is 3 to 30 characters long,
    resolves to itself. *)
Theorem search_resolved_fixed (self : MagicRecognition) (text card : string) :
  lookup_sound (sym_all_cards self) →
  search self text = Ok (Some card) → 3 ≤ len card ≤ 30 →
  search self card = Ok (Some card).
Proof.
  intros Hsound Hs Hlen.
  apply search_in_index in Hs; [| done].
  unfold search.
  destruct (Z.ltb_spec (len card) 3); [lia |].
  destruct (Z.ltb_spec 30 (len card)); [lia |].
  destruct (decide (card ∈ all_cards self)); [reflexivity | contradiction].
Qed.

(** ** The resolved boxes *)

Lemma box_text_to_card_cases (self : MagicRecognition)
    (acc : BoxTextList) (bt : BoxText.t) (r : BoxTextList) :
  box_text_to_card self acc bt = Ok r →
  r = acc ∨ ∃ card, r = (acc ++ [BoxText.mk (BoxText.box bt) card 1])%list.
Proof.
  unfold box_text_to_card.
  destruct (lookup (sym_keywords self) _ _) as [| s sug].
  - destruct (search self _) as [[card |] | e]; simpl; try discriminate.
    + intros [= <-]. right. by exists card.
    + intros [= <-]. by left.
  - destruct (py_div _ _); simpl; [| discriminate]. intros [= <-]. by left.
Qed.

Lemma box_texts_to_cards_acc (self : MagicRecognition) (l : BoxTextList) :
  ∀ acc r,
    foldM (box_text_to_card self) acc l = Ok r →
    ∃ r', r = (acc ++ r')%list ∧
          map BoxText.box r' `sublist_of` map BoxText.box l ∧
          Forall (λ b, BoxText.n b = 1) r'.
Proof.
  induction l as [| bt l IH]; intros acc r; simpl.
  - intros [= <-]. exists []. rewrite app_nil_r. split_and!; constructor.
  - destruct (box_text_to_card self acc bt) as [acc' | e] eqn:Hstep; simpl;
      [| discriminate].
    intros Hr. apply IH in Hr as (r' & -> & Hsub & Hn).
    apply box_text_to_card_cases in Hstep as [-> | [card ->]].
    + exists r'. split_and!; [done | by apply sublist_cons | done].
    + exists (BoxText.mk (BoxText.box bt) card 1 :: r').
      rewrite <- app_assoc. split_and!; [done | | by constructor].
      simpl. by apply sublist_skip.
Qed.

(** X10. The resolved boxes are boxes of the input, in the order of the
    input and without repetition of a box; each counts 1, and there are no
    more of them than input boxes. *)
Theorem box_texts_to_cards_subsequence (self : MagicRecognition)
    (box_texts box_cards : BoxTextList) :
  box_texts_to_cards self box_texts = Ok box_cards →
  map BoxText.box box_cards `sublist_of` map BoxText.box box_texts ∧
  Forall (λ b, BoxText.n b = 1) box_cards ∧
  (length box_cards ≤ length box_texts)%nat.
Proof.
  intros H. apply box_texts_to_cards_acc in H as (r' & -> & Hsub & Hn).
  simpl. split_and!; [done | done |].
  apply sublist_length in Hsub. by rewrite !length_map in Hsub.
Qed.

(** ** More on the quantity assigner *)

Lemma map_insert_same {A B : Type} (f : A → B) (l : list A) (i : nat)
    (x b : A) :
  l !! i = Some b → f x = f b → map f (<[i := x]> l) = map f l.
Proof.
  revert i. induction l as [| a l IH]; intros i; [done |].
  destruct i as [| i]; simpl.
  - intros [= ->] ->. done.
  - intros Hi Hf. f_equal. by apply IH.
Qed.

Lemma assign_stacked_one_shape (l : BoxTextList) (m : Z) cmp
    (r : BoxTextList) :
  assign_stacked_one l m cmp = Ok r →
  ∃ i b,
    foldM (i_min_step l cmp) O (seq 0 (length l)) = Ok i ∧
    l !! i = Some b ∧ r = <[i := set_n b m]> l.
Proof.
  unfold assign_stacked_one.
  destruct (foldM _ _ _) as [i |]; simpl; [| discriminate].
  destruct (getitem_lookup l i) as [(b & Hb & ->) | (_ & ->)]; simpl;
    [| discriminate].
  intros [= <-]. by exists i, b.
Qed.

Lemma assign_stacked_step_invariant (P : BoxTextList → Prop) :
  (∀ l m cmp r, P l → assign_stacked_one l m cmp = Ok r → P r) →
  ∀ box_texts box_cards r,
    P box_cards → assign_stacked box_texts box_cards = Ok r → P r.
Proof.
  intros Hone box_texts box_cards r HP. unfold assign_stacked.
  apply (foldM_invariant P); [| done].
  intros x bt y Hx. unfold assign_stacked_step.
  destruct (_ =? _); [| by intros [= <-]].
  apply (foldM_invariant P); [| done].
  intros x' i y' Hx'. unfold assign_label.
  destruct (getchar (BoxText.text bt) i) as [g | e]; simpl; [| discriminate].
  destruct (times_char g); [| by intros [= <-]].
  destruct (getchar (BoxText.text bt) (1 - i)) as [d | e]; simpl;
    [| discriminate].
  destruct (isnumeric d); [| by intros [= <-]].
  destruct (int_of_char d) as [m | e]; simpl; [| discriminate].
  by apply Hone.
Qed.

(** X11. The quantity assigner changes counts only: the resolved list
    keeps its length, its positions and its names. *)
Theorem assign_stacked_keeps_cards (box_texts box_cards r : BoxTextList) :
  assign_stacked box_texts box_cards = Ok r →
  length r = length box_cards ∧
  map BoxText.box r = map BoxText.box box_cards ∧
  map BoxText.text r = map BoxText.text box_cards.
Proof.
  apply (assign_stacked_step_invariant
           (λ x, length x = length box_cards ∧
                 map BoxText.box x = map BoxText.box box_cards ∧
                 map BoxText.text x = map BoxText.text box_cards));
    [| done].
  intros l m cmp r' (Hlen & Hbox & Htext) Hone.
  apply assign_stacked_one_shape in Hone as (i & b & _ & Hb & ->).
  rewrite length_insert.
  rewrite (map_insert_same BoxText.box l i _ b) by done.
  by rewrite (map_insert_same BoxText.text l i _ b).
Qed.

Lemma assign_stacked_step_no_label (box_cards : BoxTextList)
    (bt : BoxText.t) :
  numeric_label (BoxText.text bt) = false →
  assign_stacked_step box_cards bt = Ok box_cards.
Proof.
  unfold assign_stacked_step. destruct bt as [bx tx nx]. cbn [BoxText.text].
  destruct (Z.eqb_spec (len tx) 2) as [H2 | H2]; [| done].
  destruct (len_two _ H2) as (a & b & ->).
  unfold assign_label, numeric_label.
  cbn -[isnumeric isdecimal times_char nat_of_ascii Z.of_nat Z.sub].
  destruct (times_char a), (times_char b), (isnumeric a), (isnumeric b);
    try discriminate; done.
Qed.

(** X12. Without a two-character label of a multiplier glyph and a
    numeric character among the boxes, the resolved list is returned as it
    was given. *)
Theorem assign_stacked_no_label (box_texts box_cards : BoxTextList) :
  Forall (λ bt, numeric_label (BoxText.text bt) = false) box_texts →
  assign_stacked box_texts box_cards = Ok box_cards.
Proof.
  unfold assign_stacked.
  induction 1 as [| bt l Hbt _ IH]; simpl; [reflexivity |].
  by rewrite assign_stacked_step_no_label.
Qed.

Lemma bind_Ok {A : Type} (m : result A) : (m ≫= λ a, Ok a) = m.
Proof. by destruct m. Qed.

(** X13. A label with the glyph first ("x4") writes its digit with the
    unconstrained comparator, a label with the digit first ("4x") writes it
    with the direction-gated one. *)
Theorem assign_label_dispatch (box_cards : BoxTextList) (box : Z * Z)
    (n0 : Z) (g d : ascii) :
  times_char g = true → isdecimal d = true →
  let m := Z.of_nat (nat_of_ascii d) - 48 in
  0 ≤ m ≤ 9 ∧
  assign_stacked_step box_cards (BoxText.mk box (String g (String d "")) n0)
    = assign_stacked_one box_cards m (λ b1 b2, comp_md b1 b2 box) ∧
  assign_stacked_step box_cards (BoxText.mk box (String d (String g "")) n0)
    = assign_stacked_one box_cards m (λ b1 b2, comp_sb b1 b2 box).
Proof.
  intros Hg Hd m.
  pose proof (isdecimal_isnumeric d Hd) as Hnum.
  pose proof (times_char_not_numeric g Hg) as Hgn.
  assert (times_char d = false) as Hdt.
  { destruct (times_char d) eqn:E; [| done].
    apply times_char_not_numeric in E. congruence. }
  split.
  { apply (int_of_char_range d). unfold int_of_char. by rewrite Hd. }
  unfold assign_stacked_step, assign_label, int_of_char.
  cbn -[isnumeric isdecimal times_char nat_of_ascii Z.of_nat Z.sub
        assign_stacked_one].
  rewrite Hg, Hd, Hnum, Hdt.
  cbn -[nat_of_ascii Z.of_nat Z.sub assign_stacked_one].
  split.
  - by destruct (assign_stacked_one _ _ _).
  - by rewrite bind_Ok.
Qed.

(** ** The box a label is bound to *)

Section NearestLoop.
Variables (l : BoxTextList) (label : Z * Z) (g : Z * Z → bool).
Variable cmp : Z * Z → Z * Z → bool.
Hypothesis cmp_eq :
  ∀ b1 b2, cmp b1 b2 = g b1 && (dist label b1 <? dist label b2).

Lemma i_min_step_in_range (i_min i : nat) :
  (i_min < length l)%nat → (i < length l)%nat →
  i_min_step l cmp i_min i =
  Ok (if box_test l g i && (box_dist l label i <? box_dist l label i_min)
      then i else i_min).
Proof.
  intros Hmin Hi. unfold i_min_step, getitem, box_test, box_dist.
  destruct (lookup_lt_is_Some_2 l i Hi) as [bi ->].
  destruct (lookup_lt_is_Some_2 l i_min Hmin) as [bm ->].
  simpl. by rewrite cmp_eq.
Qed.

(** After the indices below [k] the loop holds index 0 or an index that
    passes the test; the box there is no farther from the label than the
    box at 0 and than every box below [k] that passes the test, and nearer
    than those before it. *)
Lemma i_min_loop (k : nat) :
  l ≠ [] → (k ≤ length l)%nat →
  ∃ i,
    foldM (i_min_step l cmp) O (seq 0 k) = Ok i ∧
    (i < length l)%nat ∧
    (i = O ∨ (i < k)%nat ∧ box_test l g i = true) ∧
    box_dist l label i ≤ box_dist l label 0 ∧
    ∀ j, (j < k)%nat → box_test l g j = true →
         box_dist l label i ≤ box_dist l label j ∧
         ((j < i)%nat → box_dist l label i < box_dist l label j).
Proof.
  intros Hne. induction k as [| k IH]; intros Hk.
  - exists O. simpl. split_and!; [done | | by left | lia | intros; lia].
    destruct l; [done | simpl; lia].
  - destruct (IH ltac:(lia)) as (i & Hloop & Hi & Hsel & H0 & Hall).
    rewrite seq_S, foldM_app, Hloop. simpl.
    rewrite i_min_step_in_range by lia. simpl.
    destruct (box_test l g k) eqn:Hg; simpl.
    + destruct (Z.ltb_spec (box_dist l label k) (box_dist l label i))
        as [Hlt | Hge].
      * exists k. split_and!; [done | lia | right; split; [lia | done] | lia |].
        intros j Hj Hgj.
        destruct (decide (j = k)) as [-> | Hjk]; [lia |].
        destruct (Hall j ltac:(lia) Hgj) as [Hle _]. lia.
      * exists i. split_and!; [done | done | | done |].
        { destruct Hsel as [-> | [? ?]]; [by left | right; split; [lia | done]]. }
        intros j Hj Hgj.
        destruct (decide (j = k)) as [-> | Hjk].
        { split; [lia |]. destruct Hsel as [-> | [? ?]]; lia. }
        apply Hall; [lia | done].
    + exists i. split_and!; [done | done | | done |].
      { destruct Hsel as [-> | [? ?]]; [by left | right; split; [lia | done]]. }
      intros j Hj Hgj.
      destruct (decide (j = k)) as [-> | Hjk]; [congruence |].
      apply Hall; [lia | done].
Qed.

Lemma assign_stacked_one_nearest (m : Z) :
  l ≠ [] →
  ∃ i b,
    l !! i = Some b ∧
    assign_stacked_one l m cmp = Ok (<[i := set_n b m]> l) ∧
    (i = O ∨ g (BoxText.box b) = true) ∧
    ∀ j bj, l !! j = Some bj →
      (j = O → dist label (BoxText.box b) ≤ dist label (BoxText.box bj)) ∧
      (g (BoxText.box bj) = true →
       dist label (BoxText.box b) ≤ dist label (BoxText.box bj) ∧
       ((j < i)%nat →
        dist label (BoxText.box b) < dist label (BoxText.box bj))).
Proof.
  intros Hne.
  destruct (i_min_loop (length l) Hne (le_n _))
    as (i & Hloop & Hi & Hsel & H0 & Hall).
  destruct (lookup_lt_is_Some_2 l i Hi) as [b Hb].
  exists i, b. unfold assign_stacked_one, getitem.
  rewrite Hloop. simpl. rewrite Hb. simpl.
  assert (box_dist l label i = dist label (BoxText.box b)) as Hdi
    by (unfold box_dist; by rewrite Hb).
  split_and!; [done | done | |].
  - destruct Hsel as [-> | [_ Hg]]; [by left | right].
    unfold box_test in Hg. by rewrite Hb in Hg.
  - intros j bj Hj.
    assert (box_dist l label j = dist label (BoxText.box bj)) as Hdj
      by (unfold box_dist; by rewrite Hj).
    split.
    + intros ->. lia.
    + intros Hg.
      assert (box_test l g j = true) as Hgj
        by (unfold box_test; by rewrite Hj).
      apply lookup_lt_Some in Hj.
      destruct (Hall j Hj Hgj) as [Hle Hlt]. lia.
Qed.
End NearestLoop.

(** X14. With the unconstrained comparator and a list that is not empty,
    the count is written to the first box of least squared distance to the
    label, and to no other. *)
Theorem assign_nearest_unconstrained (l : BoxTextList) (label : Z * Z)
    (m : Z) :
  l ≠ [] →
  ∃ i b,
    l !! i = Some b ∧
    assign_stacked_one l m (λ b1 b2, comp_md b1 b2 label)
      = Ok (<[i := set_n b m]> l) ∧
    ∀ j bj, l !! j = Some bj →
      dist label (BoxText.box b) ≤ dist label (BoxText.box bj) ∧
      ((j < i)%nat →
       dist label (BoxText.box b) < dist label (BoxText.box bj)).
Proof.
  intros Hne.
  destruct (assign_stacked_one_nearest l label (λ _, true)
              (λ b1 b2, comp_md b1 b2 label) ltac:(done) m Hne)
    as (i & b & Hb & Hone & _ & Hall).
  exists i, b. split_and!; [done | done |].
  intros j bj Hj. by apply (Hall j bj Hj).
Qed.

(** X15. With the direction-gated comparator and a list that is not
    empty, the count is written to the box at index 0 or to a box that
    passes the gate, and that box is no farther from the label than the box
    at index 0 and than every box that passes the gate. *)
Theorem assign_nearest_constrained (l : BoxTextList) (label : Z * Z)
    (m : Z) :
  l ≠ [] →
  ∃ i b,
    l !! i = Some b ∧
    assign_stacked_one l m (λ b1 b2, comp_sb b1 b2 label)
      = Ok (<[i := set_n b m]> l) ∧
    (i = O ∨ gate label (BoxText.box b) = true) ∧
    ∀ j bj, l !! j = Some bj →
      j = O ∨ gate label (BoxText.box bj) = true →
      dist label (BoxText.box b) ≤ dist label (BoxText.box bj).
Proof.
  intros Hne.
  destruct (assign_stacked_one_nearest l label (gate label)
              (λ b1 b2, comp_sb b1 b2 label)
              (λ b1 b2, comp_sb_gate b1 b2 label) m Hne)
    as (i & b & Hb & Hone & Hsel & Hall).
  exists i, b. split_and!; [done | done | done |].
  intros j bj Hj [-> | Hg].
  - destruct (Hall O bj Hj) as [H _]. by apply H.
  - destruct (Hall j bj Hj) as [_ H]. by apply H.
Qed.

Lemma map_lookup {A B : Type} (f : A → B) (l : list A) (i : nat) :
  map f l !! i = f <$> (l !! i).
Proof.
  revert i. induction l as [| a l IH]; intros [| i]; simpl; auto.
Qed.

Lemma foldM_ext {A B : Type} (f f' : A → B → result A) (l : list B) (a : A) :
  (∀ x b, f x b = f' x b) → foldM f a l = foldM f' a l.
Proof.
  intros Hf. revert a. induction l as [| b l IH]; intros a; simpl; [done |].
  rewrite Hf. destruct (f' a b); simpl; [apply IH | done].
Qed.

(** the search for the nearest box reads positions only *)
Lemma i_min_step_boxes (l1 l2 : BoxTextList) cmp (a i : nat) :
  map BoxText.box l1 = map BoxText.box l2 →
  i_min_step l1 cmp a i = i_min_step l2 cmp a i.
Proof.
  intros Hmap.
  assert (∀ j, BoxText.box <$> (l1 !! j) = BoxText.box <$> (l2 !! j)) as Hj.
  { intros j. by rewrite <- !map_lookup, Hmap. }
  unfold i_min_step, getitem.
  pose proof (Hj i) as Hi. pose proof (Hj a) as Ha.
  destruct (l1 !! i) as [b1 |], (l2 !! i) as [b2 |]; simpl in *;
    try discriminate; [| done].
  destruct (l1 !! a) as [c1 |], (l2 !! a) as [c2 |]; simpl in *;
    try discriminate; [| done].
  injection Hi as Hi. injection Ha as Ha. by rewrite Hi, Ha.
Qed.

(** X16. When two labels are bound with the same comparator from the same
    position, the later count replaces the earlier one: the result is the
    one of the later label alone. *)
Theorem assign_stacked_one_overwrite (l r : BoxTextList) (m1 m2 : Z) cmp :
  assign_stacked_one l m1 cmp = Ok r →
  assign_stacked_one r m2 cmp = assign_stacked_one l m2 cmp.
Proof.
  intros H1. apply assign_stacked_one_shape in H1 as (i & b & Hloop & Hb & ->).
  unfold assign_stacked_one.
  rewrite length_insert.
  rewrite (foldM_ext (i_min_step (<[i := set_n b m1]> l) cmp)
             (i_min_step l cmp)).
  - rewrite Hloop. simpl. unfold getitem.
    rewrite list_lookup_insert_eq by (by eapply lookup_lt_Some).
    rewrite Hb. simpl. by rewrite list_insert_insert_eq.
  - intros x j. apply i_min_step_boxes.
    by apply (map_insert_same BoxText.box l i _ b).
Qed.

(** ** When the quantity assigner succeeds *)

Lemma i_min_loop_total (l : BoxTextList) cmp (idxs : list nat) :
  Forall (λ j, (j < length l)%nat) idxs →
  ∀ a, (a < length l)%nat →
       ∃ i, foldM (i_min_step l cmp) a idxs = Ok i ∧ (i < length l)%nat.
Proof.
  induction 1 as [| j idxs Hj _ IH]; intros a Ha; simpl; [eauto |].
  assert (∃ i, i_min_step l cmp a j = Ok i ∧ (i < length l)%nat)
    as (i & -> & Hi).
  { unfold i_min_step, getitem.
    destruct (lookup_lt_is_Some_2 l j Hj) as [bj ->].
    destruct (lookup_lt_is_Some_2 l a Ha) as [ba ->]. simpl.
    destruct (cmp _ _); eauto. }
  simpl. by apply IH.
Qed.

Lemma assign_stacked_one_total (l : BoxTextList) (m : Z) cmp :
  l ≠ [] →
  ∃ r, assign_stacked_one l m cmp = Ok r ∧ length r = length l.
Proof.
  intros Hne.
  assert (0 < length l)%nat as Hlen by (destruct l; [done | simpl; lia]).
  destruct (i_min_loop_total l cmp (seq 0 (length l))) with (a := O)
    as (i & Hloop & Hi); [| done |].
  { apply Forall_forall. intros j Hj%list_elem_of_In%in_seq. lia. }
  destruct (lookup_lt_is_Some_2 l i Hi) as [b Hb].
  exists (<[i := set_n b m]> l). unfold assign_stacked_one, getitem.
  rewrite Hloop. simpl. rewrite Hb. simpl.
  split; [done | apply length_insert].
Qed.

Lemma assign_stacked_step_total (box_cards : BoxTextList) (bt : BoxText.t) :
  box_cards ≠ [] →
  (numeric_label (BoxText.text bt) = true →
   count_label (BoxText.text bt) = true) →
  ∃ r, assign_stacked_step box_cards bt = Ok r ∧
       length r = length box_cards.
Proof.
  intros Hne Hlabel. unfold assign_stacked_step.
  destruct bt as [bx tx nx]. cbn [BoxText.text] in *.
  destruct (Z.eqb_spec (len tx) 2) as [H2 | H2]; [| eauto].
  destruct (len_two _ H2) as (a & b & ->).
  pose proof (isdecimal_isnumeric a) as Ha.
  pose proof (isdecimal_isnumeric b) as Hb.
  pose proof (times_char_not_numeric a) as Hta.
  pose proof (times_char_not_numeric b) as Htb.
  unfold assign_label, int_of_char, count_label, numeric_label in *.
  cbn -[isnumeric isdecimal times_char nat_of_ascii Z.of_nat Z.sub
        assign_stacked_one].
  destruct (times_char a), (times_char b),
    (isdecimal a), (isdecimal b), (isnumeric a), (isnumeric b);
    try discriminate (Ha eq_refl); try discriminate (Hb eq_refl);
    try discriminate (Hta eq_refl); try discriminate (Htb eq_refl);
    try discriminate (Hlabel eq_refl);
    cbn -[nat_of_ascii Z.of_nat Z.sub assign_stacked_one];
    eauto;
    match goal with
    | |- context [assign_stacked_one ?l ?m ?c] =>
        destruct (assign_stacked_one_total l m c Hne) as (r & -> & Hlen)
    end;
    cbn; eauto.
Qed.

Lemma assign_stacked_total (box_texts box_cards : BoxTextList) :
  box_cards ≠ [] →
  Forall (λ bt, numeric_label (BoxText.text bt) = true →
                count_label (BoxText.text bt) = true) box_texts →
  ∃ r, assign_stacked box_texts box_cards = Ok r.
Proof.
  intros Hne Hall. unfold assign_stacked. revert box_cards Hne.
  induction Hall as [| bt l Hbt _ IH]; intros box_cards Hne; simpl;
    [eauto |].
  destruct (assign_stacked_step_total box_cards bt Hne Hbt)
    as (r & -> & Hlen).
  simpl. apply IH. intros ->. destruct box_cards; [done | discriminate].
Qed.

(** X17. With a resolved list that is not empty and labels whose numeric
    character is always a digit, the quantity assigner returns a list; a
    numeric character that is not a digit makes it raise [ValueError]
    instead, whatever the list. *)
Theorem assign_stacked_succeeds (box_texts box_cards : BoxTextList) :
  box_cards ≠ [] →
  Forall (λ bt, numeric_label (BoxText.text bt) = true →
                count_label (BoxText.text bt) = true) box_texts →
  (∃ r, assign_stacked box_texts box_cards = Ok r) ∧
  ∀ box n0 g d,
    times_char g = true → isnumeric d = true → isdecimal d = false →
    assign_stacked [BoxText.mk box (String g (String d "")) n0] box_cards
    = Raise ValueError.
Proof.
  intros Hne Hall. split; [by apply assign_stacked_total |].
  intros box n0 g d Hg Hnum Hdec.
  unfold assign_stacked, assign_stacked_step, assign_label, int_of_char.
  cbn -[isnumeric isdecimal times_char nat_of_ascii Z.of_nat Z.sub
        assign_stacked_one].
  by rewrite Hg, Hnum, Hdec.
Qed.

(** ** More on the deck assembler *)

Lemma add_cards_positive (card : string) (deck : Pile) (p : Z) :
  0 ≤ p → positive_pile deck → positive_pile (add_cards card deck p).
Proof.
  intros Hp Hpos k q. unfold add_cards.
  destruct (cards deck !! card) as [q0 |] eqn:Hq0; simpl.
  - rewrite lookup_insert. case_decide as Hk.
    + intros [= <-]. specialize (Hpos card q0 Hq0). lia.
    + apply Hpos.
  - destruct (Z.ltb_spec 0 p); simpl; [| apply Hpos].
    rewrite lookup_insert. case_decide as Hk; [| apply Hpos].
    intros [= <-]. lia.
Qed.

Lemma qty_add_cards (card : string) (deck : Pile) (p : Z) (k : string) :
  0 ≤ p →
  qty (add_cards card deck p) k
  = qty deck k + (if decide (card = k) then p else 0).
Proof.
  intros Hp. unfold qty, add_cards.
  destruct (cards deck !! card) as [q0 |] eqn:Hq0; simpl.
  - rewrite lookup_insert. case_decide as Hk; simpl.
    + subst k. rewrite Hq0. simpl. lia.
    + lia.
  - destruct (Z.ltb_spec 0 p); simpl.
    + rewrite lookup_insert. case_decide as Hk; simpl.
      * subst k. rewrite Hq0. simpl. lia.
      * lia.
    + case_decide as Hk; lia.
Qed.

Lemma assemble_loop_positive (last : Z) (l : BoxTextList) :
  Forall counted l →
  ∀ main side added,
    positive_pile main → positive_pile side →
    let r := fold_left (assemble_step last) l (main, side, added) in
    positive_pile r.1.1 ∧ positive_pile r.1.2.
Proof.
  induction 1 as [| b l Hb Hl IH]; intros main side added Hm Hs; simpl;
    [done |].
  unfold counted in Hb.
  apply IH; apply add_cards_positive; (done || lia).
Qed.

Lemma assemble_loop_qty (last : Z) (l : BoxTextList) (k : string) :
  Forall counted l →
  ∀ main side added,
    let r := fold_left (assemble_step last) l (main, side, added) in
    qty r.1.1 k + qty r.1.2 k = qty main k + qty side k + copies k l.
Proof.
  induction 1 as [| b l Hb Hl IH]; intros main side added; simpl; [lia |].
  unfold counted in Hb.
  rewrite IH, !qty_add_cards by lia.
  destruct (decide (BoxText.text b = k)); lia.
Qed.

Lemma positive_pile_empty : positive_pile (mkPile ∅).
Proof. intros k q. simpl. by rewrite lookup_empty. Qed.

Lemma qty_positive (p : Pile) (k : string) :
  positive_pile p → (0 < qty p k ↔ k ∈ dom (cards p)) ∧ 0 ≤ qty p k.
Proof.
  intros Hpos. unfold qty. rewrite elem_of_dom.
  destruct (cards p !! k) as [q |] eqn:Hq; simpl.
  - specialize (Hpos k q Hq). split; [| lia]. split; [eauto | done].
  - split; [| lia]. split; [lia | by intros [? ?]].
Qed.

(** X18. With counts that are not negative, no quantity of either pile is
    zero or negative. *)
Theorem assemble_quantities_positive (box_cards : BoxTextList) :
  Forall counted box_cards →
  ∀ k q,
    cards (maindeck (assemble box_cards)) !! k = Some q ∨
    cards (sideboard (assemble box_cards)) !! k = Some q →
    0 < q.
Proof.
  intros Hn k q. rewrite assemble_eq. simpl.
  destruct (assemble_loop_positive (last_main_card box_cards) box_cards Hn
              (mkPile ∅) (mkPile ∅) 0 positive_pile_empty positive_pile_empty)
    as [Hm Hs].
  intros [H | H]; [by apply (Hm k q) | by apply (Hs k q)].
Qed.

(** X19. With counts that are not negative, the two piles hold together,
    for every name, the copies the resolved boxes count for it; a name is a
    key of the deck exactly when that number is positive. *)
Theorem assemble_per_card (box_cards : BoxTextList) (k : string) :
  Forall counted box_cards →
  let deck := assemble box_cards in
  qty (maindeck deck) k + qty (sideboard deck) k = copies k box_cards ∧
  (k ∈ dom (cards (maindeck deck)) ∨ k ∈ dom (cards (sideboard deck))
   ↔ 0 < copies k box_cards).
Proof.
  intros Hn. cbv zeta. rewrite assemble_eq. simpl.
  destruct (assemble_loop_positive (last_main_card box_cards) box_cards Hn
              (mkPile ∅) (mkPile ∅) 0 positive_pile_empty positive_pile_empty)
    as [Hm Hs].
  pose proof (assemble_loop_qty (last_main_card box_cards) box_cards k Hn
                (mkPile ∅) (mkPile ∅) 0) as Hq.
  cbv zeta in *. unfold qty at 3 4 in Hq. simpl in Hq.
  rewrite lookup_empty in Hq. simpl in Hq.
  destruct (qty_positive _ k Hm) as [Hmd Hm0].
  destruct (qty_positive _ k Hs) as [Hsd Hs0].
  split; [lia |].
  rewrite <- Hmd, <- Hsd. lia.
Qed.

(** X20. With counts that are not negative, the sideboard never holds
    more than 15 copies and the maindeck never more than
    [max(60, total − 15)]; from 75 copies on the sideboard holds exactly
    15, and between 60 and 75 the maindeck holds exactly 60. *)
Theorem assemble_pile_bounds (box_cards : BoxTextList) :
  Forall counted box_cards →
  let deck := assemble box_cards in
  let total := n_cards box_cards in
  0 ≤ pile_total (sideboard deck) ≤ 15 ∧
  0 ≤ pile_total (maindeck deck) ≤ Z.max 60 (total - 15) ∧
  (75 ≤ total → pile_total (sideboard deck) = 15) ∧
  (60 ≤ total ≤ 75 → pile_total (maindeck deck) = 60).
Proof.
  intros Hn. cbv zeta.
  pose proof (n_cards_nonneg _ Hn).
  destruct (assemble_totals box_cards Hn) as [Hm Hs]. cbv zeta in Hm, Hs.
  unfold last_main_card in *. lia.
Qed.

(** ** More on the whole pipeline *)




Lemma n_cards_ones (l : BoxTextList) :
  Forall (λ b, BoxText.n b = 1) l → n_cards l = Z.of_nat (length l).
Proof.
  induction 1 as [| b l Hb _ IH]; simpl; [done |]. rewrite Hb, IH. lia.
Qed.

(** X22. In a run without a label every resolved box counts one copy: the
    deck holds as many copies as boxes resolved, at most one for each box
    of the input. *)
Theorem pipeline_without_labels (sort : BoxTextList → BoxTextList)
    (self : MagicRecognition) (box_texts : BoxTextList) (deck : Deck) :
  Forall (λ bt, numeric_label (BoxText.text bt) = false) (sort box_texts) →
  box_texts_to_stacked_cards sort self box_texts = Ok deck →
  ∃ box_cards,
    box_texts_to_cards self (sort box_texts) = Ok box_cards ∧
    deck = assemble box_cards ∧
    pile_total (maindeck deck) + pile_total (sideboard deck)
      = Z.of_nat (length box_cards) ∧
    (length box_cards ≤ length (sort box_texts))%nat.
Proof.
  intros Hnone. unfold box_texts_to_stacked_cards.
  destruct (box_texts_to_cards self (sort box_texts)) as [bc | e] eqn:Hbc;
    simpl; [| discriminate].
  assert (assign_stacked (sort box_texts) bc = Ok bc) as ->.
  { unfold assign_stacked. clear Hbc.
    induction Hnone as [| bt l Hbt _ IH]; simpl; [done |].
    by rewrite assign_stacked_step_no_label. }
  simpl. intros [= <-]. exists bc.
  pose proof Hbc as Hacc.
  apply box_texts_to_cards_acc in Hacc as (r' & Hr & Hsub & Hones).
  simpl in Hr. subst r'.
  assert (Forall counted bc) as Hn.
  { eapply Forall_impl; [exact Hones |]. intros b Hb. simpl in Hb.
    unfold counted. lia. }
  destruct (assemble_totals bc Hn) as [Hm Hs]. cbv zeta in Hm, Hs.
  rewrite <- (n_cards_ones bc Hones).
  split_and!; [done | done | lia |].
  apply sublist_length in Hsub. by rewrite !length_map in Hsub.
Qed.

(** ** Runs of the further properties *)

Lemma islands_contracts :
  compare_contract (edit_dist islands) ∧
  lookup_bounded (sym_all_cards islands) ∧
  lookup_bounded (sym_keywords islands) ∧
  ("" ∉ all_cards islands) ∧ ("" ∉ words (sym_keywords islands)).
Proof.
  split_and!.
  - exact levenshtein_compare_contract.
  - exact (closest_lookup_bounded levenshtein _
             (λ s t, proj1 (levenshtein_length s t))).
  - exact (closest_lookup_bounded damerau_osa _ damerau_osa_length).
  - unlisted.
  - unlisted.
Defined.

Lemma resolution_never_raises_witness :
  (compare_contract (edit_dist islands) ∧
   lookup_bounded (sym_all_cards islands) ∧
   lookup_bounded (sym_keywords islands) ∧
   ("" ∉ all_cards islands) ∧ ("" ∉ words (sym_keywords islands))) ∧
  (∀ text, ∃ r, search islands text = Ok r) ∧
  (∀ box_texts, ∃ r, box_texts_to_cards islands box_texts = Ok r).
Proof.
  pose proof islands_contracts as H.
  split; [exact H |].
  destruct H as (H1 & H2 & H3 & H4 & H5).
  exact (resolution_never_raises islands H1 H2 H3 H4 H5).
Defined.

Lemma search_truncated_no_budget_witness :
  compare_contract (edit_dist islands) ∧
  ("Isl.." ∉ all_cards islands) ∧ find ".." "Isl.." = 3 ∧ 3 ≠ -1 ∧
  budget (max_ratio_diff islands) 3 ≤ 0 ∧
  search islands "Isl.." = Ok None.
Proof.
  assert (compare_contract (edit_dist islands)) as H1
    by exact levenshtein_compare_contract.
  assert ("Isl.." ∉ all_cards islands) as H2 by unlisted.
  assert (find ".." "Isl.." = 3) as H3 by reflexivity.
  assert (3 ≠ -1) as H4 by lia.
  assert (budget (max_ratio_diff islands) 3 ≤ 0) as H5
    by (vm_compute; discriminate).
  pose proof (search_truncated_no_budget islands "Isl.." 3 H1 H2 H3 H4 H5).
  conjs.
Defined.

Lemma search_truncated_completes_witness :
  compare_contract (edit_dist islands) ∧
  3 ≤ len "Isla.." ≤ 30 ∧ ("Isla.." ∉ all_cards islands) ∧
  find ".." "Isla.." = 4 ∧ 4 ≠ -1 ∧
  0 < budget (max_ratio_diff islands) 4 ∧
  "Island Sanctuary" ∈ all_cards islands ∧
  slice_to (Z.to_nat 4) "Island Sanctuary" = slice_to (Z.to_nat 4) "Isla.." ∧
  ∃ c l1 l2,
    search islands "Isla.." = Ok (Some c) ∧
    all_cards islands = (l1 ++ c :: l2)%list ∧
    slice_to (Z.to_nat 4) c = slice_to (Z.to_nat 4) "Isla.." ∧
    ∀ c', c' ∈ l1 →
          slice_to (Z.to_nat 4) c' ≠ slice_to (Z.to_nat 4) "Isla..".
Proof.
  assert (compare_contract (edit_dist islands)) as H1
    by exact levenshtein_compare_contract.
  assert (3 ≤ len "Isla.." ≤ 30) as H2 by (unfold len; simpl; lia).
  assert ("Isla.." ∉ all_cards islands) as H3 by unlisted.
  assert (find ".." "Isla.." = 4) as H4 by reflexivity.
  assert (4 ≠ -1) as H5 by lia.
  assert (0 < budget (max_ratio_diff islands) 4) as H6
    by (vm_compute; reflexivity).
  assert ("Island Sanctuary" ∈ all_cards islands) as H7 by listed.
  assert (slice_to (Z.to_nat 4) "Island Sanctuary"
          = slice_to (Z.to_nat 4) "Isla..") as H8 by reflexivity.
  pose proof (search_truncated_completes islands "Isla.." 4
                "Island Sanctuary" H1 H2 H3 H4 H5 H6 H7 H8).
  conjs.
Defined.

Lemma search_resolved_fixed_witness :
  lookup_sound (sym_all_cards swamps) ∧
  search swamps "Swamq" = Ok (Some "Swamp") ∧ 3 ≤ len "Swamp" ≤ 30 ∧
  search swamps "Swamp" = Ok (Some "Swamp").
Proof.
  assert (lookup_sound (sym_all_cards swamps)) as H1
    by exact (closest_lookup_sound _).
  assert (search swamps "Swamq" = Ok (Some "Swamp")) as H2
    by (vm_compute; reflexivity).
  assert (3 ≤ len "Swamp" ≤ 30) as H3 by (unfold len; simpl; lia).
  pose proof (search_resolved_fixed swamps "Swamq" "Swamp" H1 H2 H3).
  conjs.
Defined.

Lemma box_texts_to_cards_subsequence_witness :
  let box_texts :=
    [BoxText.mk (0, 0) "Fear12" 1; BoxText.mk (0, 5) "x4" 1] in
  let box_cards := [BoxText.mk (0, 0) "Fear" 1] in
  box_texts_to_cards vintage box_texts = Ok box_cards ∧
  map BoxText.box box_cards `sublist_of` map BoxText.box box_texts ∧
  Forall (λ b, BoxText.n b = 1) box_cards ∧
  (length box_cards ≤ length box_texts)%nat.
Proof.
  cbv zeta.
  assert (box_texts_to_cards vintage
            [BoxText.mk (0, 0) "Fear12" 1; BoxText.mk (0, 5) "x4" 1]
          = Ok [BoxText.mk (0, 0) "Fear" 1]) as H
    by (vm_compute; reflexivity).
  split; [exact H |].
  exact (box_texts_to_cards_subsequence vintage _ _ H).
Defined.

Lemma assign_stacked_keeps_cards_witness :
  let box_texts := [BoxText.mk (0, 5) "x4" 1] in
  let box_cards := [BoxText.mk (0, 0) "Island" 1] in
  let r := [BoxText.mk (0, 0) "Island" 4] in
  assign_stacked box_texts box_cards = Ok r ∧
  length r = length box_cards ∧
  map BoxText.box r = map BoxText.box box_cards ∧
  map BoxText.text r = map BoxText.text box_cards.
Proof.
  cbv zeta.
  assert (assign_stacked [BoxText.mk (0, 5) "x4" 1]
            [BoxText.mk (0, 0) "Island" 1]
          = Ok [BoxText.mk (0, 0) "Island" 4]) as H by reflexivity.
  split; [exact H |].
  exact (assign_stacked_keeps_cards _ _ _ H).
Defined.

Lemma assign_stacked_no_label_witness :
  let box_texts :=
    [BoxText.mk (0, 0) "Island" 1; BoxText.mk (0, 5) "xx" 1] in
  let box_cards := [BoxText.mk (0, 0) "Island" 1] in
  Forall (λ bt, numeric_label (BoxText.text bt) = false) box_texts ∧
  assign_stacked box_texts box_cards = Ok box_cards.
Proof.
  cbv zeta.
  assert (Forall (λ bt, numeric_label (BoxText.text bt) = false)
            [BoxText.mk (0, 0) "Island" 1; BoxText.mk (0, 5) "xx" 1]) as H
    by (repeat constructor).
  split; [exact H |].
  exact (assign_stacked_no_label _ _ H).
Defined.

Lemma assign_label_dispatch_witness :
  let box_cards :=
    [BoxText.mk (10, 0) "Island" 1; BoxText.mk (0, 5) "Swamp" 1] in
  times_char "x" = true ∧ isdecimal "4" = true ∧
  assign_stacked_step box_cards (BoxText.mk (8, 8) "x4" 1)
    = assign_stacked_one box_cards 4 (λ b1 b2, comp_md b1 b2 (8, 8)) ∧
  assign_stacked_step box_cards (BoxText.mk (8, 8) "4x" 1)
    = assign_stacked_one box_cards 4 (λ b1 b2, comp_sb b1 b2 (8, 8)).
Proof.
  cbv zeta.
  assert (times_char "x" = true) as H1 by reflexivity.
  assert (isdecimal "4" = true) as H2 by reflexivity.
  destruct (assign_label_dispatch
              [BoxText.mk (10, 0) "Island" 1; BoxText.mk (0, 5) "Swamp" 1]
              (8, 8) 1 "x" "4" H1 H2) as (_ & Ha & Hb).
  split_and!; [exact H1 | exact H2 | exact Ha | exact Hb].
Defined.

Lemma assign_nearest_unconstrained_witness :
  let l := [BoxText.mk (10, 0) "Island" 1; BoxText.mk (0, 5) "Swamp" 1] in
  l ≠ [] ∧
  ∃ i b,
    l !! i = Some b ∧
    assign_stacked_one l 4 (λ b1 b2, comp_md b1 b2 (8, 8))
      = Ok (<[i := set_n b 4]> l) ∧
    ∀ j bj, l !! j = Some bj →
      dist (8, 8) (BoxText.box b) ≤ dist (8, 8) (BoxText.box bj) ∧
      ((j < i)%nat →
       dist (8, 8) (BoxText.box b) < dist (8, 8) (BoxText.box bj)).
Proof.
  cbv zeta.
  assert ([BoxText.mk (10, 0) "Island" 1; BoxText.mk (0, 5) "Swamp" 1] ≠ [])
    as H by discriminate.
  split; [exact H |].
  exact (assign_nearest_unconstrained _ (8, 8) 4 H).
Defined.

Lemma assign_nearest_constrained_witness :
  let l := [BoxText.mk (10, 0) "Island" 1; BoxText.mk (0, 5) "Swamp" 1] in
  l ≠ [] ∧
  ∃ i b,
    l !! i = Some b ∧
    assign_stacked_one l 4 (λ b1 b2, comp_sb b1 b2 (8, 8))
      = Ok (<[i := set_n b 4]> l) ∧
    (i = O ∨ gate (8, 8) (BoxText.box b) = true) ∧
    ∀ j bj, l !! j = Some bj →
      j = O ∨ gate (8, 8) (BoxText.box bj) = true →
      dist (8, 8) (BoxText.box b) ≤ dist (8, 8) (BoxText.box bj).
Proof.
  cbv zeta.
  assert ([BoxText.mk (10, 0) "Island" 1; BoxText.mk (0, 5) "Swamp" 1] ≠ [])
    as H by discriminate.
  split; [exact H |].
  exact (assign_nearest_constrained _ (8, 8) 4 H).
Defined.

Lemma assign_stacked_one_overwrite_witness :
  let l := [BoxText.mk (10, 0) "Island" 1; BoxText.mk (0, 5) "Swamp" 1] in
  let r := [BoxText.mk (10, 0) "Island" 4; BoxText.mk (0, 5) "Swamp" 1] in
  assign_stacked_one l 4 (λ b1 b2, comp_md b1 b2 (8, 8)) = Ok r ∧
  assign_stacked_one r 2 (λ b1 b2, comp_md b1 b2 (8, 8))
    = assign_stacked_one l 2 (λ b1 b2, comp_md b1 b2 (8, 8)).
Proof.
  cbv zeta.
  assert (assign_stacked_one
            [BoxText.mk (10, 0) "Island" 1; BoxText.mk (0, 5) "Swamp" 1] 4
            (λ b1 b2, comp_md b1 b2 (8, 8))
          = Ok [BoxText.mk (10, 0) "Island" 4; BoxText.mk (0, 5) "Swamp" 1])
    as H by reflexivity.
  split; [exact H |].
  exact (assign_stacked_one_overwrite _ _ 4 2 _ H).
Defined.

Lemma assign_stacked_succeeds_witness :
  let box_texts :=
    [BoxText.mk (0, 0) "Island" 1; BoxText.mk (0, 5) "x4" 1] in
  let box_cards := [BoxText.mk (0, 0) "Island" 1] in
  box_cards ≠ [] ∧
  Forall (λ bt, numeric_label (BoxText.text bt) = true →
                count_label (BoxText.text bt) = true) box_texts ∧
  ∃ r, assign_stacked box_texts box_cards = Ok r.
Proof.
  cbv zeta.
  assert ([BoxText.mk (0, 0) "Island" 1] ≠ []) as H1 by discriminate.
  assert (Forall (λ bt, numeric_label (BoxText.text bt) = true →
                        count_label (BoxText.text bt) = true)
            [BoxText.mk (0, 0) "Island" 1; BoxText.mk (0, 5) "x4" 1]) as H2
    by (repeat constructor; simpl; congruence).
  pose proof (proj1 (assign_stacked_succeeds _ _ H1 H2)).
  conjs.
Defined.

Lemma assemble_quantities_positive_witness :
  let box_cards :=
    [BoxText.mk (0, 0) "Island" 40; BoxText.mk (0, 1) "Swamp" 25] in
  Forall counted box_cards ∧
  ∀ k q,
    cards (maindeck (assemble box_cards)) !! k = Some q ∨
    cards (sideboard (assemble box_cards)) !! k = Some q →
    0 < q.
Proof.
  cbv zeta.
  assert (Forall counted
            [BoxText.mk (0, 0) "Island" 40; BoxText.mk (0, 1) "Swamp" 25]) as H
    by (repeat constructor; unfold counted; simpl; lia).
  split; [exact H |].
  exact (assemble_quantities_positive _ H).
Defined.

Lemma assemble_per_card_witness :
  let box_cards :=
    [BoxText.mk (0, 0) "Island" 40; BoxText.mk (0, 1) "Swamp" 25;
     BoxText.mk (0, 2) "Island" 3] in
  Forall counted box_cards ∧
  qty (maindeck (assemble box_cards)) "Island"
    + qty (sideboard (assemble box_cards)) "Island" = 43.
Proof.
  cbv zeta.
  assert (Forall counted
            [BoxText.mk (0, 0) "Island" 40; BoxText.mk (0, 1) "Swamp" 25;
             BoxText.mk (0, 2) "Island" 3]) as H
    by (repeat constructor; unfold counted; simpl; lia).
  split; [exact H |].
  exact (proj1 (assemble_per_card _ "Island" H)).
Defined.

Lemma assemble_pile_bounds_witness :
  let box_cards :=
    [BoxText.mk (0, 0) "Island" 40; BoxText.mk (0, 1) "Swamp" 25] in
  Forall counted box_cards ∧
  0 ≤ pile_total (sideboard (assemble box_cards)) ≤ 15 ∧
  0 ≤ pile_total (maindeck (assemble box_cards))
    ≤ Z.max 60 (n_cards box_cards - 15).
Proof.
  cbv zeta.
  assert (Forall counted
            [BoxText.mk (0, 0) "Island" 40; BoxText.mk (0, 1) "Swamp" 25]) as H
    by (repeat constructor; unfold counted; simpl; lia).
  destruct (assemble_pile_bounds _ H) as (Ha & Hb & _).
  split_and!; (exact H || apply Ha || apply Hb).
Defined.


Lemma pipeline_without_labels_witness :
  let box_texts :=
    [BoxText.mk (0, 1) "Swamp" 1; BoxText.mk (0, 0) "Island" 1] in
  let deck := mkDeck (mkPile {["Island" := 1]}) (mkPile ∅) in
  Forall (λ bt, numeric_label (BoxText.text bt) = false)
    (sort_boxes box_texts) ∧
  box_texts_to_stacked_cards sort_boxes islands box_texts = Ok deck ∧
  ∃ box_cards,
    box_texts_to_cards islands (sort_boxes box_texts) = Ok box_cards ∧
    deck = assemble box_cards ∧
    pile_total (maindeck deck) + pile_total (sideboard deck)
      = Z.of_nat (length box_cards) ∧
    (length box_cards ≤ length (sort_boxes box_texts))%nat.
Proof.
  cbv zeta.
  assert (Forall (λ bt, numeric_label (BoxText.text bt) = false)
            (sort_boxes
               [BoxText.mk (0, 1) "Swamp" 1; BoxText.mk (0, 0) "Island" 1]))
    as H1 by (repeat constructor).
  assert (box_texts_to_stacked_cards sort_boxes islands
            [BoxText.mk (0, 1) "Swamp" 1; BoxText.mk (0, 0) "Island" 1]
          = Ok (mkDeck (mkPile {["Island" := 1]}) (mkPile ∅))) as H2
    by (vm_compute; reflexivity).
  pose proof (pipeline_without_labels sort_boxes islands _ _ H1 H2).
  conjs.
Defined.
